(** * kagi-translate-file: the chunk pipeline of [kagi-translate-file.py]

    A shallow embedding of the four functions of the script
    ([split_text_into_chunks], [translate_chunk], [translate_file], [main])
    and the properties of its chunker, retry loop, collector and assembler.

    Conventions of the embedding.
    - A Python [str] is a [string]; [len] is [String.length] read in [Z].
    - Python integers ([max_length], [max_requests], [workers], [tries],
      HTTP status codes) are [Z].
    - The list [translated_chunks], written by index, is a [list] with
      stdpp's lookup and insert.
    - The outside world (the file system, the remote endpoint, the order in
      which the worker pool completes its futures) is a record of oracles,
      so that every function of the script is a function of Rocq that can
      be evaluated.
    - Printing is a trace of structured messages; the extra lines printed
      under [--verbose] are left out of the traces. The flag itself is
      kept: under it [len(translated_text)] is evaluated, which raises on
      a payload without length. *)

From Stdlib Require Import ZArith Lia Ascii.
From stdpp Require Import base option list strings gmap pretty.

Local Open Scope string_scope.
Local Open Scope list_scope.
Local Open Scope Z_scope.

(** ** Python string primitives *)

Module PyStr.

(** The newline character ['\n']. *)
Definition newline_char : ascii := Ascii.ascii_of_nat 10.
Definition newline : string := String newline_char EmptyString.

(** [len(s)] as a Python integer. *)
Definition len (s : string) : Z := Z.of_nat (String.length s).

(** Truthiness of a [str]: only the empty string is falsy. *)
Definition truthy (s : string) : bool :=
  match s with
  | EmptyString => false
  | String _ _ => true
  end.

(** [s.split('\n')]: the pieces between newlines; never the empty list. *)
Fixpoint split (s : string) : list string :=
  match s with
  | EmptyString => [EmptyString]
  | String c rest =>
      if Ascii.eqb c newline_char then EmptyString :: split rest
      else match split rest with
           | line :: lines => String c line :: lines
           | [] => [String c EmptyString]
           end
  end.

(** [sep.join(pieces)]. *)
Definition join (sep : string) (pieces : list string) : string :=
  String.concat sep pieces.

End PyStr.

(** ** Python values *)

(** A value that [json.loads] can put at a position of the payload, and
    hence a [result] of [translate_chunk]. A float is kept up to being
    zero and a list or a dict up to its length: the script looks at the
    truth value of a result, at its [len] and, through the [TypeError] of
    [str.join], at the name of its type. *)
Inductive PyValue :=
  | VNone
  | VBool (b : bool)
  | VInt (n : Z)
  | VFloat (zero : bool)
  | VStr (s : string)
  | VList (length : nat)
  | VDict (length : nat).

(** [bool(v)]. *)
Definition truthy_value (v : PyValue) : bool :=
  match v with
  | VNone => false
  | VBool b => b
  | VInt n => negb (n =? 0)
  | VFloat zero => negb zero
  | VStr s => PyStr.truthy s
  | VList n | VDict n => negb (n =? 0)%nat
  end.

(** Whether [len(v)] is defined; it raises [TypeError] otherwise. *)
Definition has_len (v : PyValue) : bool :=
  match v with
  | VStr _ | VList _ | VDict _ => true
  | VNone | VBool _ | VInt _ | VFloat _ => false
  end.

(** [type(v).__name__]. *)
Definition type_name (v : PyValue) : string :=
  match v with
  | VNone => "NoneType"
  | VBool _ => "bool"
  | VInt _ => "int"
  | VFloat _ => "float"
  | VStr _ => "str"
  | VList _ => "list"
  | VDict _ => "dict"
  end.

(** The message of the [TypeError] that [str.join] raises for the item
    [v] at position [i]. *)
Definition join_error (i : nat) (v : PyValue) : string :=
  "sequence item " +:+ pretty i +:+ ": expected str instance, "
  +:+ type_name v +:+ " found".

(** [sep.join(items)]: the [TypeError] of the first item that is not a
    [str], else the texts joined. [i] is the position of the first item
    of [items] in the whole sequence. *)
Fixpoint texts_from (i : nat) (items : list PyValue) : string + list string :=
  match items with
  | [] => inr []
  | VStr s :: items =>
      match texts_from (S i) items with
      | inr texts => inr (s :: texts)
      | inl e => inl e
      end
  | v :: _ => inl (join_error i v)
  end.

Definition join_values (sep : string) (items : list PyValue)
    : string + string :=
  match texts_from 0 items with
  | inr texts => inr (PyStr.join sep texts)
  | inl e => inl e
  end.

(** ** The chunker: [split_text_into_chunks] *)

(** One iteration of the [for line in text.split('\n')] loop; the state is
    the pair [(chunks, current_chunk)]. *)
Definition chunk_step (max_length : Z) (st : list string * string)
    (line : string) : list string * string :=
  let '(chunks, current_chunk) := st in
  if (PyStr.len current_chunk + PyStr.len line + 1 >? max_length)
       && PyStr.truthy current_chunk
  then (chunks ++ [current_chunk], line)
  else
    let current_chunk :=
      if PyStr.truthy current_chunk then current_chunk +:+ PyStr.newline
      else current_chunk in
    (chunks, current_chunk +:+ line).

Definition split_text_into_chunks (text : string) (max_length : Z)
    : list string :=
  let '(chunks, current_chunk) :=
    fold_left (chunk_step max_length) (PyStr.split text) ([], "") in
  if PyStr.truthy current_chunk then chunks ++ [current_chunk] else chunks.

(** The text ["line1\nline2\nline3"] of the script's documentation. *)
Definition three_lines : string :=
  PyStr.join PyStr.newline ["line1"; "line2"; "line3"].

Example chunks_one : split_text_into_chunks three_lines 100 = [three_lines].
Proof. reflexivity. Qed.

Example chunks_three :
  split_text_into_chunks three_lines 6 = ["line1"; "line2"; "line3"].
Proof. reflexivity. Qed.

Example split_three : PyStr.split three_lines = ["line1"; "line2"; "line3"].
Proof. reflexivity. Qed.

(** ** The translation client: [translate_chunk] *)

(** The tuple [args] that [translate_file] builds for one chunk. *)
Record ChunkArgs := {
  chunk : string;
  from_lang : string;
  to_lang : string;
  token : string;
  endpoint : string;
  verbose : bool;
  chunk_idx : nat;
}.

(** What the client looks at in an HTTP response: the status code and the
    outcome of [json.loads(response.json()["data"])[2]], which is [Some v]
    when the payload decodes and has the value [v] at position 2, a text or
    not, and [None] when any step of the decoding raises. *)
Record Response := {
  status_code : Z;
  decoded : option PyValue;
}.

(** [response.ok]: false exactly for the status codes from 400 to 599. *)
Definition ok (r : Response) : bool :=
  negb ((400 <=? status_code r) && (status_code r <? 600)).

(** The outcome of one [session.post]. *)
Inductive PostResult :=
  | Raises (e : string)
  | Returns (r : Response).

(** The endpoint: the answer to the [n]-th post made for a chunk. *)
Definition Remote := ChunkArgs → nat → PostResult.

(** What one call of [translate_chunk] does, in order. *)
Inductive ClientEvent :=
  | SleepJitter                   (* time.sleep(random.uniform(0.1, 0.5)) *)
  | Post (n : nat)                (* the n-th session.post of this call *)
  | SleepRateLimit (lo hi : Z)    (* time.sleep(5 + random.uniform(lo, hi)) *)
  | Sleep (seconds : Z).          (* time.sleep(seconds) *)

(** What [translate_chunk] returns: the tuple [(chunk_idx, translated_text)]
    or [(chunk_idx, None)], or Python's [None] when control leaves the
    [while] loop and reaches the end of the function. *)
Inductive ChunkReturn :=
  | Tuple (idx : nat) (result : PyValue)
  | ReturnsNone.

Definition max_tries : Z := 3.

Definition prepend (evs : list ClientEvent)
    (r : option (ChunkReturn * list ClientEvent))
    : option (ChunkReturn * list ClientEvent) :=
  match r with
  | Some (ret, tr) => Some (ret, evs ++ tr)
  | None => None
  end.

(** The loop [while tries < max_tries]. [posts] counts the posts made so
    far; [None] means that [fuel] iterations were not enough. The value at
    position 2 of the payload is returned as it is, a text or not; under
    [verbose] its [len] is printed first, and a value without [len] raises
    into the handler. *)
Fixpoint retry_loop (fuel : nat) (remote : Remote) (args : ChunkArgs)
    (posts : nat) (tries : Z) : option (ChunkReturn * list ClientEvent) :=
  match fuel with
  | O => None
  | S fuel =>
      if tries <? max_tries then
        (* the [except Exception] handler *)
        let handler :=
          let tries := tries + 1 in
          if tries <? max_tries
          then prepend [Post posts; Sleep (2 * tries)]
                 (retry_loop fuel remote args (S posts) tries)
          else Some (Tuple (chunk_idx args) VNone, [Post posts]) in
        match remote args posts with
        | Raises _ => handler
        | Returns response =>
            if status_code response =? 429 then
              prepend [Post posts; SleepRateLimit (tries * 2) (tries * 4)]
                (retry_loop fuel remote args (S posts) (tries + 1))
            else if negb (ok response) then
              Some (Tuple (chunk_idx args) VNone, [Post posts])
            else
              match decoded response with
              | None => handler
              | Some translated_text =>
                  if verbose args && negb (has_len translated_text)
                  then handler
                  else Some (Tuple (chunk_idx args) translated_text,
                             [Post posts])
              end
        end
      else Some (ReturnsNone, [])
  end.

Definition translate_chunk (fuel : nat) (remote : Remote) (args : ChunkArgs)
    : option (ChunkReturn * list ClientEvent) :=
  prepend [SleepJitter] (retry_loop fuel remote args 0 0).

(** Three iterations and the last test of the loop condition. *)
Definition enough_fuel : nat := S (Z.to_nat max_tries).

(** The number of remote calls in a trace. *)
Definition is_post (ev : ClientEvent) : bool :=
  match ev with
  | Post _ => true
  | _ => false
  end.

Definition posts_of (tr : list ClientEvent) : nat :=
  length (List.filter is_post tr).

(** ** The dispatcher and the assembler: [translate_file] *)

(** The lines the script prints outside [--verbose]. *)
Inductive Message :=
  | MsgStarting (workers : Z)     (* starting translation with N workers... *)
  | MsgChunkFailed (number : nat) (* chunk N failed - output will have gaps *)
  | MsgDone (path : string)       (* done! output saved to PATH *)
  | MsgError (e : string)         (* Error: E *)
  | MsgNoToken.                   (* no API token! ... *)

(** What the main thread does, in order. [Write] is a write that
    succeeded. *)
Inductive Event :=
  | OpenRead (path : string)
  | Print (m : Message)
  | Submit (args : ChunkArgs)
  | Write (path content : string).

(** The world a run happens in. [read_file p] is the text of [p] or the
    message of the exception that reading raises; [write_file p s] is
    [None] when [s] is written to [p] and the exception's message
    otherwise; [schedule] decides which of the running futures completes
    next. *)
Record World := {
  read_file : string → string + string;
  write_file : string → string → option string;
  remote : Remote;
  schedule : list nat;
}.

(** [as_completed(futures)]: every future is yielded once, in the order the
    schedule picks: at each step the future at position
    [pick mod (number still running)] completes, where [pick] is the next
    number of the schedule (0 when the schedule has run out). *)
Fixpoint complete {A} (n : nat) (sched : list nat) (running : list A)
    : list A :=
  match n with
  | O => []
  | S n =>
      let k := (hd 0 sched `mod` length running)%nat in
      match running !! k with
      | Some future => future :: complete n (tl sched) (delete k running)
      | None => []
      end
  end.

Definition as_completed {A} (sched : list nat) (futures : list A) : list A :=
  complete (length futures) sched futures.

(** The loop [for future in as_completed(futures)]: the messages it prints
    and either the message of the exception that ends it or the final
    [translated_chunks]. Unpacking Python's [None] raises [TypeError]; an
    index outside the list raises [IndexError]. *)
Fixpoint collect (completed : list ChunkReturn)
    (translated_chunks : list PyValue)
    : list Message * (string + list PyValue) :=
  match completed with
  | [] => ([], inr translated_chunks)
  | ReturnsNone :: _ => ([], inl "cannot unpack non-iterable NoneType object")
  | Tuple idx result :: completed =>
      if truthy_value result then
        if (idx <? length translated_chunks)%nat
        then collect completed (<[idx := result]> translated_chunks)
        else ([], inl "list assignment index out of range")
      else
        let '(msgs, out) := collect completed translated_chunks in
        (MsgChunkFailed (idx + 1) :: msgs, out)
  end.

(** [[chunk for chunk in translated_chunks if chunk]]. *)
Definition truthy_chunks (translated_chunks : list PyValue) : list PyValue :=
  List.filter truthy_value translated_chunks.

(** ['\n'.join([chunk for chunk in translated_chunks if chunk])]: the
    text, or the message of the [TypeError] that [join] raises when a
    chunk that is kept is not a text. *)
Definition assemble (translated_chunks : list PyValue) : string + string :=
  join_values PyStr.newline (truthy_chunks translated_chunks).

(** [chunks[:max_requests]] under the guard [max_requests > 0]. *)
Definition limit_chunks (max_requests : Z) (chunks : list string)
    : list string :=
  if max_requests >? 0 then take (Z.to_nat max_requests) chunks else chunks.

(** The list [chunk_args], built by [enumerate]. *)
Definition make_chunk_args (from_lang to_lang token endpoint : string)
    (verbose : bool) (chunks : list string) : list ChunkArgs :=
  imap (λ i chunk,
          {| chunk := chunk; from_lang := from_lang; to_lang := to_lang;
             token := token; endpoint := endpoint; verbose := verbose;
             chunk_idx := i |})
       chunks.

(** [translate_file]: the trace of the main thread. [ThreadPoolExecutor]
    raises [ValueError] for [max_workers <= 0]. An exception raised inside
    the [with] block leaves it once the submitted futures have run, and
    is then printed by the handler at the end; so is the [TypeError] of
    the [join], which is raised before the output file is opened. *)
Definition translate_file (w : World)
    (input_file_path output_file_path from_lang to_lang token endpoint : string)
    (max_length max_requests workers : Z) (verbose : bool)
    : option (list Event) :=
  match read_file w input_file_path with
  | inr e => Some [OpenRead input_file_path; Print (MsgError e)]
  | inl text =>
      let chunks := split_text_into_chunks text max_length in
      let chunks := limit_chunks max_requests chunks in
      let translated_chunks := replicate (length chunks) VNone in
      let chunk_args :=
        make_chunk_args from_lang to_lang token endpoint verbose chunks in
      let start := [OpenRead input_file_path; Print (MsgStarting workers)] in
      if workers <=? 0 then
        Some (start ++ [Print (MsgError "max_workers must be greater than 0")])
      else
        futures ← mapM (λ args, fst <$> translate_chunk enough_fuel (remote w) args)
                    chunk_args;
        let '(msgs, out) :=
          collect (as_completed (schedule w) futures) translated_chunks in
        let body := start ++ (Submit <$> chunk_args) ++ (Print <$> msgs) in
        match out with
        | inl e => Some (body ++ [Print (MsgError e)])
        | inr translated_chunks =>
            match assemble translated_chunks with
            | inl e => Some (body ++ [Print (MsgError e)])
            | inr translated_text =>
                match write_file w output_file_path translated_text with
                | Some e => Some (body ++ [Print (MsgError e)])
                | None =>
                    Some (body ++ [Write output_file_path translated_text;
                                   Print (MsgDone output_file_path)])
                end
            end
        end
  end.

(** ** The entry point: [main] *)

(** The values [main] reads out of the parsed command line, after the
    three [int(...)] conversions. [arg_token] is [None] when [--token] is
    not given. *)
Record Arguments := {
  arg_input_file : string;
  arg_output_file : string;
  arg_from : string;
  arg_to : string;
  arg_token : option string;
  arg_endpoint : string;
  arg_max_length : Z;
  arg_max_requests : Z;
  arg_workers : Z;
  arg_verbose : bool;
}.

(** Truthiness of a [token] that is [None] or a [str]. *)
Definition truthy_result (result : option string) : bool :=
  match result with
  | Some text => PyStr.truthy text
  | None => false
  end.

(** [main], from the test [if not token] on; [environ] is [os.environ]. *)
Definition main (w : World) (environ : gmap string string)
    (arguments : Arguments) : option (list Event) :=
  let run token :=
    translate_file w (arg_input_file arguments) (arg_output_file arguments)
      (arg_from arguments) (arg_to arguments) token (arg_endpoint arguments)
      (arg_max_length arguments) (arg_max_requests arguments)
      (arg_workers arguments) (arg_verbose arguments) in
  let token := arg_token arguments in
  if negb (truthy_result token) then
    let token := default "" (environ !! "KAGI_TOKEN") in
    if negb (PyStr.truthy token) then Some [Print MsgNoToken]
    else run token
  else run (default "" token).

(** ** Notions used in the statements *)

(** The end of [split_text_into_chunks]: the last chunk is kept when it
    is not empty. *)
Definition flush (st : list string * string) : list string :=
  let '(chunks, current_chunk) := st in
  if PyStr.truthy current_chunk then chunks ++ [current_chunk] else chunks.

(** The loop loses a line: the line is empty and arrives while the buffer
    is empty, or while the buffer is full, that is, cannot take one more
    character. *)
Definition loses_line (max_length : Z) (current_chunk line : string) : bool :=
  negb (PyStr.truthy line)
  && (negb (PyStr.truthy current_chunk)
      || (PyStr.len current_chunk + 1 >? max_length)).

(** The lines that the loop, started in the state [st], does not lose. *)
Fixpoint lines_kept (max_length : Z) (st : list string * string)
    (lines : list string) : list string :=
  match lines with
  | [] => []
  | line :: lines =>
      (if loses_line max_length st.2 line then [] else [line])
      ++ lines_kept max_length (chunk_step max_length st line) lines
  end.

(** Whether the loop, started in the state [st], loses one of the lines. *)
Fixpoint loses_a_line_from (max_length : Z) (st : list string * string)
    (lines : list string) : bool :=
  match lines with
  | [] => false
  | line :: lines =>
      loses_line max_length st.2 line
      || loses_a_line_from max_length (chunk_step max_length st line) lines
  end.

(** Whether [split_text_into_chunks] loses a line of the text. *)
Definition loses_a_line (max_length : Z) (text : string) : bool :=
  loses_a_line_from max_length ([], "") (PyStr.split text).

(** The characters of a list of lines. *)
Definition total_len (lines : list string) : Z :=
  foldr (λ line n, PyStr.len line + n) 0 lines.

(** A chunk is within the bound or is a line of the text. *)
Definition chunk_ok (max_length : Z) (lines : list string) (c : string)
    : Prop :=
  PyStr.len c <= max_length ∨ c ∈ lines.

(** A response that is not a success and not the rate-limit signal. *)
Definition refused (p : PostResult) : Prop :=
  match p with
  | Returns r => status_code r ≠ 429 ∧ ok r = false
  | Raises _ => False
  end.

(** A post that ends in the [except Exception] handler: it raises, or it
    is answered by a success response whose payload does not decode, or,
    under [verbose], decodes to a value without [len]. *)
Definition failed_attempt (verbose : bool) (p : PostResult) : Prop :=
  match p with
  | Returns r =>
      status_code r ≠ 429 ∧ ok r = true
      ∧ match decoded r with
        | None => True
        | Some translated_text =>
            verbose = true ∧ has_len translated_text = false
        end
  | Raises _ => True
  end.

(** A post answered by a success response whose payload decodes to
    [value], a text or not, with a [len] to print under [verbose]. *)
Definition answered (verbose : bool) (p : PostResult) (value : PyValue)
    : Prop :=
  match p with
  | Returns r =>
      status_code r ≠ 429 ∧ ok r = true ∧ decoded r = Some value
      ∧ (verbose = true → has_len value = true)
  | Raises _ => False
  end.

(** What the [except Exception] handler does with the rest of the loop:
    the attempt is counted; while attempts are left the client sleeps
    [2 * tries] seconds and goes round the loop again, else it returns
    [(chunk_idx, None)]. *)
Definition on_failed_attempt (fuel : nat) (remote : Remote)
    (args : ChunkArgs) (posts : nat) (tries : Z)
    : option (ChunkReturn * list ClientEvent) :=
  if tries + 1 <? max_tries
  then prepend [Post posts; Sleep (2 * (tries + 1))]
         (retry_loop fuel remote args (S posts) (tries + 1))
  else Some (Tuple (chunk_idx args) VNone, [Post posts]).

(** What the collector keeps of a result: a value that is truthy. *)
Definition kept (result : PyValue) : PyValue :=
  if truthy_value result then result else VNone.

(** The result of a chunk by its outcome: the text of a success, [None]
    for a failure. *)
Definition result_of (outcome : option string) : PyValue :=
  match outcome with
  | Some text => VStr text
  | None => VNone
  end.

(** The arguments of the chunks a run submits, in order. *)
Definition submitted (trace : list Event) : list ChunkArgs :=
  omap (λ ev, match ev with Submit args => Some args | _ => None end) trace.

(** The contents a run writes. *)
Definition written (trace : list Event) : list (string * string) :=
  omap (λ ev, match ev with
              | Write path content => Some (path, content)
              | _ => None
              end) trace.

(** ** Inputs of the examples *)

(** The text ["a\n\nb\n"]: the lines ["a"], [""], ["b"] and [""]. *)
Definition empty_lines_text : string :=
  PyStr.join PyStr.newline ["a"; ""; "b"; ""].

(** Endpoints that always give the same answer, and the arguments of a
    first chunk. *)
Definition always_status (code : Z) : Remote :=
  λ _ _, Returns {| status_code := code; decoded := None |}.

Definition always_raises : Remote := λ _ _, Raises "timeout".

(** An endpoint whose payload decodes, with [null] where the translated
    text should be. *)
Definition null_payload : Remote :=
  λ _ _, Returns {| status_code := 200; decoded := Some VNone |}.

Definition hello_args : ChunkArgs :=
  {| chunk := "hello"; from_lang := "Automatic"; to_lang := "Polish";
     token := "secret"; endpoint := "https://translate.kagi.com/?/translate";
     verbose := false; chunk_idx := 0 |}.

(** A world whose input file holds the two lines ["a"] and ["b"], whose
    endpoint answers 429 to every post for the first chunk and translates
    the second chunk, and in which the second chunk completes first. *)
Definition rate_limited_world : World :=
  {| read_file := λ _, inl ("a" +:+ PyStr.newline +:+ "b");
     write_file := λ _ _, None;
     remote := λ args _,
       if (chunk_idx args =? 0)%nat
       then Returns {| status_code := 429; decoded := None |}
       else Returns {| status_code := 200; decoded := Some (VStr "B") |};
     schedule := [1%nat] |}.

(** A world whose input file holds the text [three_lines] and whose
    endpoint answers every post with the upper-case letter ["X"]. *)
Definition plain_world : World :=
  {| read_file := λ _, inl three_lines;
     write_file := λ _ _, None;
     remote := λ _ _,
       Returns {| status_code := 200; decoded := Some (VStr "X") |};
     schedule := [] |}.

(** The command line [in.txt out.txt --to=Polish] with the defaults of the
    script and no [--token]. *)
Definition no_token_arguments : Arguments :=
  {| arg_input_file := "in.txt"; arg_output_file := "out.txt";
     arg_from := "Automatic"; arg_to := "Polish"; arg_token := None;
     arg_endpoint := "https://translate.kagi.com/?/translate";
     arg_max_length := 1500; arg_max_requests := 100; arg_workers := 3;
     arg_verbose := false |}.

(** The end of a run that has a text to write: the write and the last
    line, or the handler's line for the exception of the write. *)
Definition save (w : World) (output_file_path translated_text : string)
    : list Event :=
  match write_file w output_file_path translated_text with
  | Some e => [Print (MsgError e)]
  | None =>
      [Write output_file_path translated_text;
       Print (MsgDone output_file_path)]
  end.

(** What is left of the run after the collector: the handler's line for
    an exception of the collector or of the [join], else [save]. *)
Definition finish (w : World) (output_file_path : string)
    (out : string + list PyValue) : list Event :=
  match out with
  | inl e => [Print (MsgError e)]
  | inr translated_chunks =>
      match assemble translated_chunks with
      | inl e => [Print (MsgError e)]
      | inr translated_text => save w output_file_path translated_text
      end
  end.

(** ** Further notions and inputs *)

(** The lines of a list of chunks, in order. *)
Definition lines_of (chunks : list string) : list string :=
  List.concat (PyStr.split <$> chunks).

(** The rate-limit signal: a response with status 429. *)
Definition rate_limited (p : PostResult) : Prop :=
  match p with
  | Returns r => status_code r = 429
  | Raises _ => False
  end.

(** The files a run opens for reading. *)
Definition opened (trace : list Event) : list string :=
  omap (λ ev, match ev with OpenRead path => Some path | _ => None end) trace.

(** The numbers, counted from 1, of the results the collector does not
    keep. *)
Definition failed_numbers (results : list PyValue) : list nat :=
  omap (λ '(idx, result),
          if truthy_value result then None else Some (idx + 1)%nat)
       (imap pair results).

(** Every payload of a success response to one of the three posts for
    [args] has a text at position 2. *)
Definition text_payloads (remote : Remote) (args : ChunkArgs) : Prop :=
  ∀ n r v,
    (n < 3)%nat → remote args n = Returns r →
    status_code r ≠ 429 → ok r = true → decoded r = Some v →
    ∃ text, v = VStr text.

(** What unpacking Python's [None] raises. *)
Definition cannot_unpack : string :=
  "cannot unpack non-iterable NoneType object".

(** The first line of a chunk. *)
Definition first_line (c : string) : string := hd "" (PyStr.split c).

(** Every chunk but the last was closed because the first line of the
    next one did not fit behind it. *)
Definition greedy (max_length : Z) (chunks : list string) : Prop :=
  ∀ i c1 c2,
    chunks !! i = Some c1 → chunks !! S i = Some c2 →
    PyStr.len c1 + PyStr.len (first_line c2) + 1 > max_length.

(** An endpoint whose first post times out, whose second post is rate
    limited and whose third post is answered with a translation. *)
Definition third_time_lucky : Remote :=
  λ _ n,
    match n with
    | 0%nat => Raises "timeout"
    | 1%nat => Returns {| status_code := 429; decoded := None |}
    | _ => Returns {| status_code := 200; decoded := Some (VStr "czesc") |}
    end.

(** A world whose input file holds the text [three_lines] and whose
    endpoint answers every post with a payload that has the number 5
    where the translated text should be. *)
Definition number_world : World :=
  {| read_file := λ _, inl three_lines;
     write_file := λ _ _, None;
     remote := λ _ _,
       Returns {| status_code := 200; decoded := Some (VInt 5) |};
     schedule := [] |}.

(** The command line [in.txt out.txt --to=Polish --token=VALUE] with the
    defaults of the script. *)
Definition token_arguments (value : string) : Arguments :=
  {| arg_input_file := "in.txt"; arg_output_file := "out.txt";
     arg_from := "Automatic"; arg_to := "Polish"; arg_token := Some value;
     arg_endpoint := "https://translate.kagi.com/?/translate";
     arg_max_length := 1500; arg_max_requests := 100; arg_workers := 3;
     arg_verbose := false |}.

(** * Properties *)

(** ** Strings *)

Module PyStrFacts.
Import PyStr.

Lemma truthy_false (s : string) : truthy s = false ↔ s = "".
Proof. destruct s; simpl; split; congruence. Qed.

Lemma truthy_true (s : string) : truthy s = true ↔ s ≠ "".
Proof. destruct s; simpl; split; congruence. Qed.

Lemma app_nil_l (s : string) : "" +:+ s = s.
Proof. reflexivity. Qed.

Lemma app_cons (c : ascii) (s1 s2 : string) :
  String c s1 +:+ s2 = String c (s1 +:+ s2).
Proof. reflexivity. Qed.

Lemma str_app_assoc (s1 s2 s3 : string) :
  (s1 +:+ s2) +:+ s3 = s1 +:+ (s2 +:+ s3).
Proof.
  induction s1 as [|c s1 IH]; [done |]. by rewrite !app_cons, IH.
Qed.

Lemma len_app (s1 s2 : string) : len (s1 +:+ s2) = len s1 + len s2.
Proof.
  unfold len. induction s1 as [|c s1 IH]; [by rewrite app_nil_l |].
  rewrite app_cons. simpl String.length. lia.
Qed.

Lemma len_newline : len newline = 1.
Proof. reflexivity. Qed.

Lemma len_nonneg (s : string) : 0 <= len s.
Proof. unfold len. lia. Qed.

Lemma truthy_app_r (s1 s2 : string) :
  truthy s2 = true → truthy (s1 +:+ s2) = true.
Proof. destruct s1, s2; simpl; congruence. Qed.

Lemma truthy_app_l (s1 s2 : string) :
  truthy s1 = true → truthy (s1 +:+ s2) = true.
Proof. by destruct s1. Qed.

Lemma split_not_nil (s : string) : split s ≠ [].
Proof.
  induction s as [|c s IH]; simpl; [done |].
  destruct (Ascii.eqb c newline_char); [done |].
  by destruct (split s).
Qed.

(** [join] on a list with at least two pieces. *)
Lemma join_cons (sep x : string) (l : list string) :
  l ≠ [] → join sep (x :: l) = x +:+ sep +:+ join sep l.
Proof. by destruct l. Qed.

(** Splitting on newlines and joining with newlines is the identity. *)
Lemma join_split (s : string) : join newline (split s) = s.
Proof.
  induction s as [|c s IH]; [done |].
  simpl split. destruct (Ascii.eqb c newline_char) eqn:Hc.
  - apply Ascii.eqb_eq in Hc as ->.
    rewrite join_cons by apply split_not_nil. by rewrite IH.
  - pose proof (split_not_nil s) as Hne.
    destruct (split s) as [|line lines]; [done |].
    rewrite <- IH. by destruct lines.
Qed.

(** Two neighbouring pieces may be glued with the separator. *)
Lemma join_glue (sep x y : string) (before after : list string) :
  join sep (before ++ ((x +:+ sep) +:+ y) :: after)
  = join sep (before ++ x :: y :: after).
Proof.
  induction before as [|b before IH].
  - simpl app. rewrite (join_cons sep x) by done.
    destruct after as [|a after].
    + simpl. by rewrite str_app_assoc.
    + rewrite !(join_cons sep _ (a :: after)) by done.
      by rewrite !str_app_assoc.
  - simpl app. rewrite !(join_cons sep b); [by rewrite IH | | ];
      by destruct before.
Qed.

End PyStrFacts.

(** ** The chunker *)

Section chunker.
Import PyStr PyStrFacts.
Variable max_length : Z.

Lemma split_text_into_chunks_fold (text : string) :
  split_text_into_chunks text max_length
  = flush (fold_left (chunk_step max_length) (split text) ([], "")).
Proof.
  unfold split_text_into_chunks, flush.
  by destruct (fold_left _ _ _).
Qed.

Lemma fold_chunk_step_cons (line : string) (lines : list string)
    (st : list string * string) :
  fold_left (chunk_step max_length) (line :: lines) st
  = fold_left (chunk_step max_length) lines (chunk_step max_length st line).
Proof. reflexivity. Qed.

(** With an empty buffer a line becomes the buffer. *)
Lemma chunk_step_empty (chunks : list string) (line : string) :
  chunk_step max_length (chunks, "") line = (chunks, line).
Proof. unfold chunk_step. simpl. by rewrite andb_false_r. Qed.

(** With a buffer that is not empty a line either closes the buffer or
    is appended to it after a newline. *)
Lemma chunk_step_truthy (chunks : list string) (cur line : string) :
  truthy cur = true →
  chunk_step max_length (chunks, cur) line
  = if len cur + len line + 1 >? max_length
    then (chunks ++ [cur], line)
    else (chunks, (cur +:+ newline) +:+ line).
Proof.
  intros Hcur. unfold chunk_step. rewrite Hcur, andb_true_r.
  by destruct (_ >? _).
Qed.

Lemma lines_kept_cons (line : string) (lines chunks : list string)
    (cur : string) :
  lines_kept max_length (chunks, cur) (line :: lines)
  = (if loses_line max_length cur line then [] else [line])
    ++ lines_kept max_length (chunk_step max_length (chunks, cur) line) lines.
Proof. reflexivity. Qed.

(** A line is lost at a buffer that is not empty when it is empty and
    closes the buffer; no line is appended and lost. *)
Lemma loses_line_truthy (cur line : string) :
  truthy cur = true →
  loses_line max_length cur line
  = negb (truthy line) && (len cur + len line + 1 >? max_length).
Proof.
  intros Hcur. unfold loses_line. rewrite Hcur. simpl.
  destruct (truthy line) eqn:Hline; [done |].
  apply truthy_false in Hline as ->.
  change (len "") with 0. by rewrite Z.add_0_r.
Qed.

Lemma loses_line_empty (line : string) :
  loses_line max_length "" line = negb (truthy line).
Proof. unfold loses_line. simpl. by rewrite andb_true_r. Qed.

(** The chunks and the buffer, joined, are the lines that were not
    lost, joined. *)
Lemma join_fold_kept (lines chunks : list string) (cur : string) :
  join newline (flush (fold_left (chunk_step max_length) lines (chunks, cur)))
  = join newline
      (chunks ++ (if truthy cur then [cur] else [])
       ++ lines_kept max_length (chunks, cur) lines).
Proof.
  revert chunks cur.
  induction lines as [|line lines IH]; intros chunks cur.
  - simpl. destruct (truthy cur); by rewrite ?app_nil_r.
  - rewrite fold_chunk_step_cons, lines_kept_cons.
    destruct (truthy cur) eqn:Hcur.
    + rewrite loses_line_truthy, !chunk_step_truthy by done.
      destruct (len cur + len line + 1 >? max_length) eqn:Hfull.
      * rewrite IH, andb_true_r. destruct (truthy line); simpl;
          by rewrite <- app_assoc.
      * rewrite IH, andb_false_r.
        rewrite (truthy_app_l (cur +:+ newline)) by (by apply truthy_app_l).
        simpl app. apply join_glue.
    + apply truthy_false in Hcur as ->.
      rewrite loses_line_empty, !chunk_step_empty, IH.
      simpl. by destruct (truthy line).
Qed.

(** When no line is lost, every line is kept. *)
Lemma lines_kept_all (lines : list string) (st : list string * string) :
  loses_a_line_from max_length st lines = false →
  lines_kept max_length st lines = lines.
Proof.
  revert st. induction lines as [|line lines IH]; intros st; [done |].
  simpl. intros [-> Hrest]%orb_false_iff. simpl. f_equal. by apply IH.
Qed.

(** The lines that are lost are empty, and there are fewer lines left
    when one is lost. *)
Lemma lines_kept_total (lines : list string) (st : list string * string) :
  total_len (lines_kept max_length st lines) = total_len lines.
Proof.
  revert st. induction lines as [|line lines IH]; intros st; [done |].
  simpl. unfold loses_line. destruct (truthy line) eqn:Hline.
  - simpl. by rewrite IH.
  - apply truthy_false in Hline as ->.
    destruct (_ && _); simpl; rewrite IH; done.
Qed.

Lemma lines_kept_length (lines : list string) (st : list string * string) :
  (length (lines_kept max_length st lines) ≤ length lines)%nat
  ∧ (loses_a_line_from max_length st lines = true →
     (length (lines_kept max_length st lines) < length lines)%nat).
Proof.
  revert st. induction lines as [|line lines IH]; intros st; [done |].
  simpl. destruct (IH (chunk_step max_length st line)) as [Hle Hlt].
  destruct (loses_line max_length st.2 line); simpl.
  - split; [lia |]. intros _. lia.
  - split; [lia |]. intros Hlost. specialize (Hlt Hlost). lia.
Qed.

(** The length of joined lines: their characters and one newline
    between two of them. *)
Lemma len_join (lines : list string) :
  len (join newline lines)
  = total_len lines + Z.of_nat (pred (length lines)).
Proof.
  induction lines as [|line lines IH]; [done |].
  destruct lines as [|line' lines].
  - simpl. unfold join. simpl. lia.
  - rewrite join_cons by done. rewrite !len_app, len_newline, IH.
    simpl total_len. simpl length. simpl pred. lia.
Qed.

(** Joining the chunks gives the text back exactly when the text is empty
    or no line is lost. *)
Lemma join_chunks_exact (text : string) :
  join newline (split_text_into_chunks text max_length) = text
  ↔ text = "" ∨ loses_a_line max_length text = false.
Proof.
  rewrite split_text_into_chunks_fold, join_fold_kept. simpl app.
  unfold loses_a_line. split.
  - intros Hjoin.
    destruct (loses_a_line_from max_length ([], "") (split text)) eqn:Hlost;
      [left | by right].
    destruct (lines_kept_length (split text) ([], "")) as [_ Hlt].
    specialize (Hlt Hlost).
    assert (len (join newline (lines_kept max_length ([], "") (split text)))
            = len (join newline (split text))) as Hlen
      by (by rewrite Hjoin, join_split).
    rewrite !len_join, lines_kept_total in Hlen.
    destruct (lines_kept max_length ([], "") (split text)) as [|line kept];
      [by rewrite <- Hjoin |].
    simpl length in *. simpl pred in *. lia.
  - intros [-> | Hkept]; [done |].
    rewrite lines_kept_all by done. apply join_split.
Qed.

Lemma chunk_ok_fold (all lines chunks : list string) (cur : string) :
  lines ⊆ all →
  Forall (chunk_ok max_length all) chunks →
  chunk_ok max_length all cur ∨ cur = "" →
  Forall (chunk_ok max_length all)
    (flush (fold_left (chunk_step max_length) lines (chunks, cur))).
Proof.
  revert chunks cur.
  induction lines as [|line lines IH]; intros chunks cur Hsub Hchunks Hcur.
  - simpl. destruct (truthy cur) eqn:Ht; [| done].
    apply Forall_app. split; [done |]. apply Forall_singleton.
    apply truthy_true in Ht. by destruct Hcur.
  - assert (line ∈ all) as Hline by (apply Hsub; left).
    assert (lines ⊆ all) as Hsub' by (intros x Hx; apply Hsub; by right).
    rewrite fold_chunk_step_cons. destruct (truthy cur) eqn:Ht.
    + rewrite chunk_step_truthy by done.
      apply truthy_true in Ht.
      destruct (len cur + len line + 1 >? max_length) eqn:Hgt.
      * apply IH; [done | | left; by right].
        apply Forall_app. split; [done |]. apply Forall_singleton.
        by destruct Hcur.
      * apply IH; [done | done |]. left. left.
        rewrite !len_app, len_newline. lia.
    + apply truthy_false in Ht as ->. rewrite chunk_step_empty.
      apply IH; [done | done |]. left. by right.
Qed.

Lemma chunks_bounded (text c : string) :
  c ∈ split_text_into_chunks text max_length →
  len c <= max_length ∨ (c ∈ split text ∧ max_length < len c).
Proof.
  intros Hc. rewrite split_text_into_chunks_fold in Hc.
  assert (chunk_ok max_length (split text) c) as [Hle | Hin].
  { eapply Forall_forall; [| exact Hc].
    apply chunk_ok_fold; [done | done | by right]. }
  - by left.
  - destruct (Z_le_gt_dec (len c) max_length); [by left | right].
    split; [done | lia].
Qed.

End chunker.

(** C2, as stated, fails: an empty line that meets an empty buffer is
    dropped. The text ["\na"] with [max_length = 10] has the lines [""] and
    ["a"], none longer than 10, and the only chunk is ["a"]. *)
Lemma join_chunks_drops_empty_line :
  ¬ (∀ (text : string) (max_length : Z),
       1 <= max_length →
       Forall (λ line, PyStr.len line <= max_length) (PyStr.split text) →
       PyStr.join PyStr.newline (split_text_into_chunks text max_length)
       = text).
Proof.
  intros Hclaim.
  specialize (Hclaim (PyStr.newline +:+ "a") 10).
  assert (PyStr.join PyStr.newline
            (split_text_into_chunks (PyStr.newline +:+ "a") 10) = "a")
    as Hrun by reflexivity.
  rewrite Hrun in Hclaim.
  assert ("a" = PyStr.newline +:+ "a") as Habs.
  { apply Hclaim; [lia |]. repeat constructor; by vm_compute. }
  discriminate Habs.
Qed.

(** C2, amended: for every text and every [max_length], joining the
    chunks with single newlines gives the text back if and only if the
    text is empty or the loop loses no line, where a line is lost exactly
    when it is empty and arrives while the buffer [current_chunk] is
    empty (at the start of the text or behind another lost line) or full
    ([len(current_chunk) + 1 > max_length]). Empty lines that arrive at a
    buffer with room, such as those of ["a\n\nb\n"] with [max_length = 10],
    are kept; lines longer than [max_length] do no harm. *)
Theorem join_chunks_roundtrip (text : string) (max_length : Z) :
  PyStr.join PyStr.newline (split_text_into_chunks text max_length) = text
  ↔ text = "" ∨ loses_a_line max_length text = false.
Proof. apply join_chunks_exact. Qed.

Lemma join_chunks_roundtrip_witness :
  loses_a_line 10 empty_lines_text = false
  ∧ PyStr.join PyStr.newline (split_text_into_chunks empty_lines_text 10)
    = empty_lines_text
  ∧ loses_a_line 1 empty_lines_text = true
  ∧ PyStr.join PyStr.newline (split_text_into_chunks empty_lines_text 1)
    ≠ empty_lines_text.
Proof.
  assert (loses_a_line 10 empty_lines_text = false) as Hkept by reflexivity.
  assert (loses_a_line 1 empty_lines_text = true) as Hlost by reflexivity.
  split; [exact Hkept |]. split; [| split; [exact Hlost |]].
  - apply (proj2 (join_chunks_roundtrip empty_lines_text 10)). by right.
  - intros Hjoin.
    destruct (proj1 (join_chunks_roundtrip empty_lines_text 1) Hjoin)
      as [Hempty | Hnone]; [discriminate Hempty |].
    rewrite Hlost in Hnone. discriminate Hnone.
Defined.

(** C4: for every text and every [max_length >= 1], a chunk is no longer
    than [max_length], unless it is one line of the text that is itself
    longer than [max_length]. *)
Theorem chunk_length_bounded (text : string) (max_length : Z) (c : string) :
  1 <= max_length →
  c ∈ split_text_into_chunks text max_length →
  PyStr.len c <= max_length
  ∨ (c ∈ PyStr.split text ∧ max_length < PyStr.len c).
Proof. intros _. apply chunks_bounded. Qed.

Lemma chunk_length_bounded_witness :
  1 <= 3
  ∧ "line2" ∈ split_text_into_chunks three_lines 3
  ∧ (PyStr.len "line2" <= 3
     ∨ ("line2" ∈ PyStr.split three_lines ∧ 3 < PyStr.len "line2")).
Proof.
  assert (1 <= 3) as H1 by lia.
  assert ("line2" ∈ split_text_into_chunks three_lines 3) as H2.
  { change (split_text_into_chunks three_lines 3)
      with ["line1"; "line2"; "line3"]. right. left. }
  exact (conj H1 (conj H2 (chunk_length_bounded three_lines 3 "line2" H1 H2))).
Defined.

(** ** The translation client *)

Section client.
Variable remote : Remote.
Variable args : ChunkArgs.

(** One round of the loop. *)
Lemma retry_loop_S (fuel posts : nat) (tries : Z) :
  retry_loop (S fuel) remote args posts tries
  = if tries <? max_tries then
      match remote args posts with
      | Raises _ => on_failed_attempt fuel remote args posts tries
      | Returns response =>
          if status_code response =? 429 then
            prepend [Post posts; SleepRateLimit (tries * 2) (tries * 4)]
              (retry_loop fuel remote args (S posts) (tries + 1))
          else if negb (ok response) then
            Some (Tuple (chunk_idx args) VNone, [Post posts])
          else
            match decoded response with
            | None => on_failed_attempt fuel remote args posts tries
            | Some translated_text =>
                if verbose args && negb (has_len translated_text)
                then on_failed_attempt fuel remote args posts tries
                else Some (Tuple (chunk_idx args) translated_text,
                           [Post posts])
            end
      end
    else Some (ReturnsNone, []).
Proof. reflexivity. Qed.

Lemma prepend_Some (evs : list ClientEvent) (ret : ChunkReturn)
    (tr : list ClientEvent) :
  prepend evs (Some (ret, tr)) = Some (ret, evs ++ tr).
Proof. reflexivity. Qed.

Lemma posts_of_app (tr1 tr2 : list ClientEvent) :
  posts_of (tr1 ++ tr2) = (posts_of tr1 + posts_of tr2)%nat.
Proof. unfold posts_of. by rewrite List.filter_app, length_app. Qed.

Lemma posts_of_nil : posts_of [] = 0%nat.
Proof. reflexivity. Qed.

Lemma posts_of_post (n : nat) : posts_of [Post n] = 1%nat.
Proof. reflexivity. Qed.

Lemma posts_of_round (n : nat) (ev : ClientEvent) (tr : list ClientEvent) :
  is_post ev = false → posts_of ([Post n; ev] ++ tr) = S (posts_of tr).
Proof.
  intros Hev. rewrite posts_of_app. unfold posts_of at 1.
  simpl List.filter. by rewrite Hev.
Qed.

(** The loop ends: with more fuel than attempts left it returns, after
    at most as many posts as attempts were left. *)
Lemma retry_loop_returns (fuel posts : nat) (tries : Z) :
  (Z.to_nat (max_tries - tries) < fuel)%nat →
  ∃ ret tr,
    retry_loop fuel remote args posts tries = Some (ret, tr)
    ∧ (posts_of tr ≤ Z.to_nat (max_tries - tries))%nat.
Proof.
  revert posts tries.
  induction fuel as [|fuel IH]; intros posts tries Hfuel; [lia |].
  rewrite retry_loop_S.
  destruct (tries <? max_tries) eqn:Htries;
    [| exists ReturnsNone, []; split; [done | rewrite posts_of_nil; lia]].
  apply Z.ltb_lt in Htries.
  assert (∃ ret tr,
            retry_loop fuel remote args (S posts) (tries + 1)
            = Some (ret, tr)
            ∧ (posts_of tr ≤ Z.to_nat (max_tries - (tries + 1)))%nat)
    as Hnext.
  { destruct (decide (tries + 1 < max_tries)) as [Hlt | Hge].
    - apply IH. lia.
    - destruct fuel as [|fuel]; [lia |]. rewrite retry_loop_S.
      assert ((tries + 1 <? max_tries) = false) as -> by lia.
      exists ReturnsNone, []. split; [done | rewrite posts_of_nil; lia]. }
  destruct Hnext as (ret & tr & Hnext & Hposts).
  assert (∀ ev, is_post ev = false →
            ∃ ret' tr',
              prepend [Post posts; ev]
                (retry_loop fuel remote args (S posts) (tries + 1))
              = Some (ret', tr')
              ∧ (posts_of tr' ≤ Z.to_nat (max_tries - tries))%nat)
    as Hround.
  { intros ev Hev. rewrite Hnext, prepend_Some.
    exists ret, ([Post posts; ev] ++ tr). split; [done |].
    rewrite posts_of_round by done. lia. }
  assert (∀ result,
            ∃ ret' tr',
              Some (Tuple (chunk_idx args) result, [Post posts])
              = Some (ret', tr')
              ∧ (posts_of tr' ≤ Z.to_nat (max_tries - tries))%nat)
    as Hstop.
  { intros result. eexists _, _. split; [done |]. rewrite posts_of_post. lia. }
  assert (∃ ret' tr',
            on_failed_attempt fuel remote args posts tries
            = Some (ret', tr')
            ∧ (posts_of tr' ≤ Z.to_nat (max_tries - tries))%nat)
    as Hhandler.
  { unfold on_failed_attempt. destruct (tries + 1 <? max_tries).
    - by apply Hround.
    - apply Hstop. }
  destruct (remote args posts) as [e | response]; [exact Hhandler |].
  destruct (status_code response =? 429); [by apply Hround |].
  destruct (negb (ok response)); [apply Hstop |].
  destruct (decoded response) as [translated_text |]; [| exact Hhandler].
  destruct (verbose args && negb (has_len translated_text));
    [exact Hhandler | apply Hstop].
Qed.

(** More fuel does not change what the loop returns. *)
Lemma retry_loop_fuel_S (fuel posts : nat) (tries : Z)
    (r : ChunkReturn * list ClientEvent) :
  retry_loop fuel remote args posts tries = Some r →
  retry_loop (S fuel) remote args posts tries = Some r.
Proof.
  revert posts tries r.
  induction fuel as [|fuel IH]; intros posts tries r Hr; [done |].
  rewrite retry_loop_S in Hr. rewrite retry_loop_S.
  destruct (tries <? max_tries); [| done].
  assert (∀ evs,
            prepend evs (retry_loop fuel remote args (S posts) (tries + 1))
            = Some r →
            prepend evs
              (retry_loop (S fuel) remote args (S posts) (tries + 1))
            = Some r) as Hround.
  { intros evs Hevs.
    destruct (retry_loop fuel remote args (S posts) (tries + 1))
      as [r' |] eqn:Hnext; [| done].
    by rewrite (IH _ _ _ Hnext). }
  assert (on_failed_attempt fuel remote args posts tries = Some r →
          on_failed_attempt (S fuel) remote args posts tries = Some r)
    as Hhandler.
  { unfold on_failed_attempt. destruct (tries + 1 <? max_tries); [| done].
    apply Hround. }
  destruct (remote args posts) as [e | response]; [by apply Hhandler |].
  destruct (status_code response =? 429); [by apply Hround |].
  destruct (negb (ok response)); [done |].
  destruct (decoded response) as [translated_text |]; [| by apply Hhandler].
  destruct (verbose args && negb (has_len translated_text));
    [by apply Hhandler | done].
Qed.

Lemma translate_chunk_returns (fuel : nat) :
  (enough_fuel ≤ fuel)%nat →
  ∃ ret tr,
    translate_chunk fuel remote args = Some (ret, tr)
    ∧ (posts_of tr ≤ 3)%nat.
Proof.
  intros Hfuel. unfold translate_chunk.
  destruct (retry_loop_returns fuel 0 0) as (ret & tr & Hloop & Hposts).
  { unfold enough_fuel in Hfuel. change (max_tries - 0) with max_tries. lia. }
  rewrite Hloop, prepend_Some. exists ret, ([SleepJitter] ++ tr).
  split; [done |]. rewrite posts_of_app.
  change (Z.to_nat (max_tries - 0)) with 3%nat in Hposts.
  change (posts_of [SleepJitter]) with 0%nat. lia.
Qed.

End client.

(** Two failures, then a success: three posts, linear backoff. *)
Example fails_twice_then_succeeds :
  translate_chunk enough_fuel
    (λ _ n, if (n <? 2)%nat then Raises "timeout"
            else Returns {| status_code := 200;
                            decoded := Some (VStr "czesc") |})
    hello_args
  = Some (Tuple 0 (VStr "czesc"),
          [SleepJitter; Post 0; Sleep 2; Post 1; Sleep 4; Post 2]).
Proof. reflexivity. Qed.

(** A rate limit, an exception and a rate limit use up the three tries. *)
Example mixed_failures_share_the_counter :
  translate_chunk enough_fuel
    (λ _ n, if (n =? 1)%nat then Raises "timeout"
            else Returns {| status_code := 429; decoded := None |})
    hello_args
  = Some (ReturnsNone,
          [SleepJitter; Post 0; SleepRateLimit 0 0; Post 1; Sleep 4;
           Post 2; SleepRateLimit 4 8]).
Proof. reflexivity. Qed.

(** C6: for every chunk and every behaviour of the endpoint, the retry
    loop terminates (any fuel from [enough_fuel] on gives a result) and the
    call makes at most 3 posts, whatever mix of rate limits and errors it
    meets. *)
Theorem translate_chunk_at_most_three_posts (remote : Remote)
    (args : ChunkArgs) (fuel : nat) :
  (enough_fuel ≤ fuel)%nat →
  ∃ ret tr,
    translate_chunk fuel remote args = Some (ret, tr)
    ∧ (posts_of tr ≤ Z.to_nat max_tries)%nat.
Proof. apply translate_chunk_returns. Qed.

Lemma translate_chunk_at_most_three_posts_witness :
  (enough_fuel ≤ 7)%nat
  ∧ ∃ ret tr,
      translate_chunk 7 always_raises hello_args = Some (ret, tr)
      ∧ (posts_of tr ≤ Z.to_nat max_tries)%nat.
Proof.
  assert (enough_fuel ≤ 7)%nat as Hfuel by (vm_compute; lia).
  exact (conj Hfuel
           (translate_chunk_at_most_three_posts always_raises hello_args 7
              Hfuel)).
Defined.

(** C3, as stated, fails: a response that is not a success and not a rate
    limit is not handled as a failed attempt. With an endpoint that always
    answers 500 the first round returns [(chunk_idx, None)] at once, with
    two tries left, no sleep and no second post. *)
Lemma refused_response_is_not_retried :
  ¬ (∀ (fuel : nat) (remote : Remote) (args : ChunkArgs) (posts : nat)
       (tries : Z),
       tries < max_tries →
       refused (remote args posts)
       ∨ failed_attempt (verbose args) (remote args posts) →
       retry_loop (S fuel) remote args posts tries
       = on_failed_attempt fuel remote args posts tries).
Proof.
  intros Hclaim.
  specialize (Hclaim 3%nat (always_status 500) hello_args 0%nat 0).
  assert (retry_loop 4 (always_status 500) hello_args 0 0
          = Some (Tuple 0 VNone, [Post 0])) as Hrun by reflexivity.
  assert (on_failed_attempt 3 (always_status 500) hello_args 0 0
          = Some (Tuple 0 VNone, [Post 0; Sleep 2; Post 1]))
    as Hspec by reflexivity.
  rewrite Hrun, Hspec in Hclaim.
  assert (Some (Tuple 0 VNone, [Post 0])
          = Some (Tuple 0 VNone, [Post 0; Sleep 2; Post 1])) as Habs.
  { apply Hclaim; [reflexivity |]. left. split; [discriminate | reflexivity]. }
  discriminate Habs.
Qed.

(** C3, amended: while tries are left, the three ways in which a post
    that is not rate limited can go wrong are handled differently.
    - A response that is not a success makes the client return
      [(chunk_idx, None)] at once, without sleep or retry.
    - A post that raises, or a success response whose payload cannot be
      decoded (a step of the decoding raises; under [verbose] also a
      decoded value without [len]), counts as a failed attempt: the client
      sleeps [2 * tries] seconds and posts again while tries are left, and
      returns [(chunk_idx, None)] when the third try has failed.
    - A success response whose payload decodes is returned at once as
      [(chunk_idx, value)] whatever [value] is: a malformed payload that
      still decodes, such as one with [null] in the place of the text, is
      neither retried nor counted. *)
Theorem failed_attempt_is_retried (fuel : nat) (remote : Remote)
    (args : ChunkArgs) (posts : nat) (tries : Z) :
  tries < max_tries →
  (refused (remote args posts) →
   retry_loop (S fuel) remote args posts tries
   = Some (Tuple (chunk_idx args) VNone, [Post posts]))
  ∧ (failed_attempt (verbose args) (remote args posts) →
     retry_loop (S fuel) remote args posts tries
     = if tries + 1 <? max_tries
       then prepend [Post posts; Sleep (2 * (tries + 1))]
              (retry_loop fuel remote args (S posts) (tries + 1))
       else Some (Tuple (chunk_idx args) VNone, [Post posts]))
  ∧ (∀ value,
       answered (verbose args) (remote args posts) value →
       retry_loop (S fuel) remote args posts tries
       = Some (Tuple (chunk_idx args) value, [Post posts])).
Proof.
  intros Htries. rewrite retry_loop_S.
  assert ((tries <? max_tries) = true) as -> by lia.
  fold (on_failed_attempt fuel remote args posts tries).
  destruct (remote args posts) as [e | response]; simpl.
  - split; [done |]. split; [by intros _ | by intros value].
  - split; [| split].
    + intros [Hcode Hok].
      assert ((status_code response =? 429) = false) as -> by lia.
      by rewrite Hok.
    + intros (Hcode & Hok & Hdecoded).
      assert ((status_code response =? 429) = false) as -> by lia.
      rewrite Hok. simpl negb. cbv iota.
      destruct (decoded response) as [translated_text |]; [| done].
      destruct Hdecoded as [-> ->]. done.
    + intros value (Hcode & Hok & Hdecoded & Hlen).
      assert ((status_code response =? 429) = false) as -> by lia.
      rewrite Hok, Hdecoded. simpl negb. cbv iota.
      destruct (verbose args); [by rewrite Hlen |]. done.
Qed.

Lemma failed_attempt_is_retried_witness :
  0 < max_tries
  ∧ refused (always_status 500 hello_args 0%nat)
  ∧ retry_loop 4 (always_status 500) hello_args 0 0
    = Some (Tuple 0 VNone, [Post 0])
  ∧ failed_attempt (verbose hello_args) (always_raises hello_args 0%nat)
  ∧ retry_loop 4 always_raises hello_args 0 0
    = Some (Tuple 0 VNone, [Post 0; Sleep 2; Post 1; Sleep 4; Post 2])
  ∧ answered (verbose hello_args) (null_payload hello_args 0%nat) VNone
  ∧ retry_loop 4 null_payload hello_args 0 0
    = Some (Tuple 0 VNone, [Post 0]).
Proof.
  assert (0 < max_tries) as Htries by reflexivity.
  assert (refused (always_status 500 hello_args 0%nat)) as Hrefused
    by (split; [discriminate | reflexivity]).
  assert (failed_attempt (verbose hello_args) (always_raises hello_args 0%nat))
    as Hfailed by exact I.
  assert (answered (verbose hello_args) (null_payload hello_args 0%nat) VNone)
    as Hanswered by (repeat split; discriminate).
  exact (conj Htries
          (conj Hrefused
            (conj (proj1 (failed_attempt_is_retried 3 (always_status 500)
                            hello_args 0 0 Htries) Hrefused)
              (conj Hfailed
                (conj (proj1 (proj2 (failed_attempt_is_retried 3
                                       always_raises hello_args 0 0 Htries))
                         Hfailed)
                  (conj Hanswered
                    (proj2 (proj2 (failed_attempt_is_retried 3 null_payload
                                     hello_args 0 0 Htries))
                       VNone Hanswered))))))).
Defined.

(** ** The order of completion *)

Section completion.
Context {A : Type}.
Implicit Types (sched : list nat) (running : list A).

Lemma complete_S (n : nat) sched running :
  complete (S n) sched running
  = match running !! (hd 0 sched `mod` length running)%nat with
    | Some future =>
        future :: complete n (tl sched)
                    (delete (hd 0 sched `mod` length running)%nat running)
    | None => []
    end.
Proof. reflexivity. Qed.

(** Every running future completes exactly once. *)
Lemma complete_Permutation (n : nat) sched running :
  length running = n → complete n sched running ≡ₚ running.
Proof.
  revert sched running.
  induction n as [|n IH]; intros sched running Hlen.
  - by destruct running.
  - rewrite complete_S.
    assert (hd 0 sched `mod` length running < length running)%nat as Hk
      by (apply Nat.mod_upper_bound; lia).
    destruct (lookup_lt_is_Some_2 _ _ Hk) as [future Hfuture].
    rewrite Hfuture, IH.
    + symmetry. by apply delete_Permutation.
    + rewrite length_delete by done. lia.
Qed.

Lemma as_completed_Permutation sched (futures : list A) :
  as_completed sched futures ≡ₚ futures.
Proof. by apply complete_Permutation. Qed.

(** Every order of completion is the order of some schedule. *)
Lemma as_completed_any_order (futures completed : list A) :
  completed ≡ₚ futures → ∃ sched, as_completed sched futures = completed.
Proof.
  revert futures.
  induction completed as [|future completed IH]; intros futures Hperm.
  - apply Permutation_nil_l in Hperm as <-. by exists [].
  - assert (future ∈ futures) as Hin by (rewrite <- Hperm; left).
    apply list_elem_of_lookup_1 in Hin as [k Hk].
    pose proof (lookup_lt_Some _ _ _ Hk) as Hlt.
    pose proof (delete_Permutation _ _ _ Hk) as Hdel.
    destruct (IH (delete k futures)) as [sched Hsched].
    { eapply Permutation_cons_inv. by rewrite <- Hdel. }
    exists (k :: sched). unfold as_completed in *.
    assert (length futures = S (length (delete k futures))) as ->
      by (rewrite length_delete by done; lia).
    rewrite complete_S. simpl hd. simpl tl.
    rewrite Nat.mod_small by done. by rewrite Hk, Hsched.
Qed.

End completion.

(** The order of completion does not look at the futures. *)
Lemma complete_fmap {A B} (f : A → B) (n : nat) (sched : list nat)
    (running : list A) :
  complete n sched (f <$> running) = f <$> complete n sched running.
Proof.
  revert sched running. induction n as [|n IH]; intros sched running; [done |].
  rewrite !complete_S, length_fmap, list_lookup_fmap.
  destruct (running !! _) as [future |]; [| done].
  simpl. by rewrite <- list_fmap_delete, IH.
Qed.

Lemma as_completed_fmap {A B} (f : A → B) (sched : list nat)
    (futures : list A) :
  as_completed sched (f <$> futures) = f <$> as_completed sched futures.
Proof. unfold as_completed. by rewrite length_fmap, complete_fmap. Qed.

(** ** The collector and the assembler *)

Lemma collect_tuple (idx : nat) (result : PyValue)
    (completed : list ChunkReturn) (translated_chunks : list PyValue) :
  collect (Tuple idx result :: completed) translated_chunks
  = if truthy_value result then
      if (idx <? length translated_chunks)%nat
      then collect completed (<[idx := result]> translated_chunks)
      else ([], inl "list assignment index out of range")
    else
      let '(msgs, out) := collect completed translated_chunks in
      (MsgChunkFailed (idx + 1) :: msgs, out).
Proof. reflexivity. Qed.

(** What the collector leaves in the slots when every future returned a
    tuple, every index is in range and no index comes twice: the loop ends
    without exception, a result that is kept is in its own slot and the
    other slots are as before. *)
Lemma collect_tuples (completed : list (nat * PyValue))
    (translated_chunks : list PyValue) :
  NoDup completed.*1 →
  Forall (λ p, (p.1 < length translated_chunks)%nat) completed →
  ∃ msgs slots,
    collect (uncurry Tuple <$> completed) translated_chunks
    = (msgs, inr slots)
    ∧ length slots = length translated_chunks
    ∧ (∀ idx result,
         (idx, result) ∈ completed → truthy_value result = true →
         slots !! idx = Some result)
    ∧ (∀ idx,
         (∀ result, (idx, result) ∈ completed →
                    truthy_value result = false) →
         slots !! idx = translated_chunks !! idx).
Proof.
  revert translated_chunks.
  induction completed as [|[idx result] completed IH];
    intros translated_chunks Hnodup Hrange.
  - exists [], translated_chunks.
    split; [done |]. split; [done |]. split; [| done].
    intros idx result Hin. by apply elem_of_nil in Hin.
  - apply NoDup_cons in Hnodup as [Hfresh Hnodup].
    apply Forall_cons in Hrange as [Hidx Hrange]. simpl in Hidx.
    rewrite fmap_cons. simpl uncurry. rewrite collect_tuple.
    destruct (truthy_value result) eqn:Htruthy.
    + assert ((idx <? length translated_chunks)%nat = true) as ->
        by (apply Nat.ltb_lt; lia).
      destruct (IH (<[idx := result]> translated_chunks))
        as (msgs & slots & Hcollect & Hlen & Hkept & Hother);
        [done | by rewrite length_insert |].
      exists msgs, slots. rewrite length_insert in Hlen.
      split; [done |]. split; [done |]. split.
      * intros idx' result' Hin Htruthy'.
        apply elem_of_cons in Hin as [[= -> ->] | Hin]; [| by apply Hkept].
        rewrite Hother; [by apply list_lookup_insert_eq |].
        intros result' Hin. exfalso. apply Hfresh.
        apply list_elem_of_fmap. by exists (idx, result').
      * intros idx' Hfalsy.
        assert (idx ≠ idx') as Hne.
        { intros <-. specialize (Hfalsy result). rewrite Htruthy in Hfalsy.
          discriminate Hfalsy. left. }
        rewrite Hother by (intros result' Hin; apply Hfalsy; by right).
        by apply list_lookup_insert_ne.
    + destruct (IH translated_chunks)
        as (msgs & slots & Hcollect & Hlen & Hkept & Hother); [done | done |].
      rewrite Hcollect.
      exists (MsgChunkFailed (idx + 1) :: msgs), slots.
      split; [done |]. split; [done |]. split.
      * intros idx' result' Hin Htruthy'.
        apply elem_of_cons in Hin as [[= -> ->] | Hin]; [| by apply Hkept].
        congruence.
      * intros idx' Hfalsy. apply Hother.
        intros result' Hin. apply Hfalsy. by right.
Qed.

(** The collector prints one line for each tuple whose result is not
    kept, in the order of completion. *)
Lemma collect_messages (completed : list (nat * PyValue))
    (translated_chunks slots : list PyValue) (msgs : list Message) :
  collect (uncurry Tuple <$> completed) translated_chunks = (msgs, inr slots) →
  msgs
  = MsgChunkFailed
    <$> omap (λ '(idx, result),
                if truthy_value result then None else Some (idx + 1)%nat)
             completed.
Proof.
  revert translated_chunks msgs.
  induction completed as [|[idx result] completed IH];
    intros translated_chunks msgs Hcollect.
  - by injection Hcollect as <- _.
  - rewrite fmap_cons in Hcollect. simpl uncurry in Hcollect.
    rewrite collect_tuple in Hcollect. simpl omap.
    destruct (truthy_value result).
    + destruct (idx <? length translated_chunks)%nat; [| done].
      by eapply IH.
    + destruct (collect _ translated_chunks) as [msgs' out] eqn:Hrest.
      injection Hcollect as <- ->. rewrite fmap_cons. f_equal.
      by eapply IH.
Qed.


Lemma kept_kept (result : PyValue) : kept (kept result) = kept result.
Proof.
  unfold kept. by destruct (truthy_value result) eqn:Htruthy;
    [rewrite Htruthy |].
Qed.

Lemma truthy_chunks_kept (results : list PyValue) :
  truthy_chunks (kept <$> results) = truthy_chunks results.
Proof.
  unfold truthy_chunks, kept.
  induction results as [|result results IH]; [done |].
  rewrite fmap_cons. simpl List.filter.
  destruct (truthy_value result) eqn:Htruthy.
  - by rewrite Htruthy, IH.
  - simpl. apply IH.
Qed.

(** Whatever the order of completion, when every chunk returned a tuple
    the slots end up holding, in index order, what is kept of each
    result. *)
Lemma collect_any_order (sched : list nat) (results : list PyValue) :
  ∃ msgs,
    collect (as_completed sched (imap Tuple results))
      (replicate (length results) VNone)
    = (msgs, inr (kept <$> results))
    ∧ msgs ≡ₚ MsgChunkFailed <$> failed_numbers results.
Proof.
  assert (imap Tuple results = uncurry Tuple <$> imap pair results) as ->
    by (by rewrite fmap_imap).
  rewrite as_completed_fmap.
  pose proof (as_completed_Permutation sched (imap pair results)) as Hperm.
  assert (∀ idx result,
            (idx, result) ∈ as_completed sched (imap pair results)
            ↔ results !! idx = Some result) as Hin.
  { intros idx result. rewrite Hperm, elem_of_lookup_imap. split.
    - by intros (i & y & [= -> ->] & Hy).
    - intros Hy. by exists idx, result. }
  destruct (collect_tuples (as_completed sched (imap pair results))
              (replicate (length results) VNone))
    as (msgs & slots & Hcollect & Hlen & Hkept & Hother).
  { rewrite Hperm, fmap_imap.
    replace (imap (λ n, fst ∘ pair n) results)
      with (id <$> seq 0 (length results))
      by (symmetry; apply (imap_seq_0 results id)).
    rewrite list_fmap_id. apply NoDup_seq. }
  { apply Forall_forall. intros [idx result] Hp. apply Hin in Hp.
    rewrite length_replicate. simpl. by eapply lookup_lt_Some. }
  exists msgs. rewrite Hcollect. split.
  - do 2 f_equal.
    rewrite length_replicate in Hlen.
    apply list_eq. intros idx. rewrite list_lookup_fmap.
    destruct (results !! idx) as [result |] eqn:Hresult; simpl.
    + unfold kept. destruct (truthy_value result) eqn:Htruthy.
      * apply Hkept; [by apply Hin | done].
      * rewrite Hother.
        -- apply lookup_replicate_2. by eapply lookup_lt_Some.
        -- intros result' Hp. apply Hin in Hp. congruence.
    + apply lookup_ge_None. rewrite Hlen. by apply lookup_ge_None.
  - apply collect_messages in Hcollect as ->.
    unfold failed_numbers. by rewrite Hperm.
Qed.

(** Joining texts raises nothing. *)
Lemma texts_from_texts (i : nat) (texts : list string) :
  texts_from i (VStr <$> texts) = inr texts.
Proof.
  revert i. induction texts as [|text texts IH]; intros i; [done |].
  rewrite fmap_cons. simpl. by rewrite IH.
Qed.

Lemma join_values_texts (sep : string) (texts : list string) :
  join_values sep (VStr <$> texts) = inr (PyStr.join sep texts).
Proof. unfold join_values. by rewrite texts_from_texts. Qed.

(** Of the results of successes and failures, the texts that are not empty
    are kept. *)
Lemma truthy_chunks_outcomes (outcomes : list (option string)) :
  truthy_chunks (result_of <$> outcomes)
  = VStr <$> filter (λ text, text ≠ "") (omap id outcomes).
Proof.
  unfold truthy_chunks.
  induction outcomes as [|[[|c text] |] outcomes IH]; [done | | |];
    rewrite fmap_cons; simpl; first [apply IH | f_equal; apply IH].
Qed.

Lemma assemble_outcomes (outcomes : list (option string)) :
  assemble (kept <$> (result_of <$> outcomes))
  = inr (PyStr.join PyStr.newline
           (filter (λ text, text ≠ "") (omap id outcomes))).
Proof.
  unfold assemble.
  by rewrite truthy_chunks_kept, truthy_chunks_outcomes, join_values_texts.
Qed.


(** C5, as stated, fails: a chunk whose translation succeeded with the
    empty text is left out as well. For the results ["a"], [""], ["b"] the
    output is ["a\nb"], not ["a\n\nb"]. *)
Lemma empty_translation_is_left_out :
  ¬ (∀ (sched : list nat) (results : list (option string)),
       ∃ msgs slots,
         collect (as_completed sched (imap Tuple (result_of <$> results)))
           (replicate (length results) VNone)
         = (msgs, inr slots)
         ∧ assemble slots
           = inr (PyStr.join PyStr.newline (omap id results))).
Proof.
  intros Hclaim.
  destruct (Hclaim [] [Some "a"; Some ""; Some "b"])
    as (msgs & slots & Hcollect & Hout).
  vm_compute in Hcollect. injection Hcollect as <- <-.
  vm_compute in Hout. discriminate Hout.
Qed.

(** C5, amended: for every list of chunk outcomes (a text for a success,
    nothing for a failure) and every order of completion, the collector
    ends without exception and the assembled output is the translated
    texts that are not empty, joined with single newlines in increasing
    chunk index: failed chunks and chunks translated to the empty text are
    left out, the others keep their content and order. *)
Theorem assemble_in_index_order (sched : list nat)
    (results : list (option string)) :
  ∃ msgs slots,
    collect (as_completed sched (imap Tuple (result_of <$> results)))
      (replicate (length results) VNone)
    = (msgs, inr slots)
    ∧ assemble slots
      = inr (PyStr.join PyStr.newline
               (filter (λ text, text ≠ "") (omap id results))).
Proof.
  destruct (collect_any_order sched (result_of <$> results))
    as (msgs & Hcollect & _).
  rewrite length_fmap in Hcollect.
  exists msgs, (kept <$> (result_of <$> results)). split; [done |].
  apply assemble_outcomes.
Qed.



(** ** The run: [translate_file] and [main] *)

Section run.
Variable w : World.
Variables input_file_path output_file_path : string.
Variables from_lang to_lang token endpoint : string.
Variables max_length max_requests workers : Z.
Variable verbose : bool.

(** A run that can read its input and has a positive number of workers
    submits every chunk, collects the futures in the order of the
    schedule and ends with [finish]. *)
Lemma translate_file_run (text : string) :
  read_file w input_file_path = inl text →
  0 < workers →
  let chunks :=
    limit_chunks max_requests (split_text_into_chunks text max_length) in
  let chunk_args :=
    make_chunk_args from_lang to_lang token endpoint verbose chunks in
  ∃ futures msgs out,
    Forall2 (λ args ret,
               ∃ tr, translate_chunk enough_fuel (remote w) args
                     = Some (ret, tr))
            chunk_args futures
    ∧ collect (as_completed (schedule w) futures)
        (replicate (length chunks) VNone) = (msgs, out)
    ∧ translate_file w input_file_path output_file_path from_lang to_lang
        token endpoint max_length max_requests workers verbose
      = Some ([OpenRead input_file_path; Print (MsgStarting workers)]
              ++ (Submit <$> chunk_args) ++ (Print <$> msgs)
              ++ finish w output_file_path out).
Proof.
  intros Hread Hworkers chunks chunk_args.
  unfold translate_file. rewrite Hread.
  assert ((workers <=? 0) = false) as -> by lia.
  fold chunks. fold chunk_args.
  destruct (mapM (λ args, fst <$> translate_chunk enough_fuel (remote w) args)
              chunk_args) as [futures |] eqn:Hfutures.
  - simpl. destruct (collect _ _) as [msgs out] eqn:Hcollect.
    exists futures, msgs, out. split; [| split; [done |]].
    + apply mapM_Some_1 in Hfutures.
      eapply Forall2_impl; [exact Hfutures |].
      intros args ret Hret. simpl in Hret.
      destruct (translate_chunk _ _ _) as [[ret' tr] |]; [| done].
      injection Hret as <-. by exists tr.
    + unfold finish, save.
      destruct out as [e | translated_chunks];
        [| destruct (assemble translated_chunks) as [e | translated_text];
           [| destruct (write_file w _ _)]];
        by rewrite <- app_assoc.
  - exfalso. apply mapM_None_1, Exists_exists in Hfutures
      as (args & _ & Hnone).
    destruct (translate_chunk_returns (remote w) args enough_fuel)
      as (ret & tr & Hret & _); [done |].
    by rewrite Hret in Hnone.
Qed.

Lemma submitted_app (trace1 trace2 : list Event) :
  submitted (trace1 ++ trace2) = submitted trace1 ++ submitted trace2.
Proof. apply omap_app. Qed.

Lemma submitted_Submit (chunk_args : list ChunkArgs) :
  submitted (Submit <$> chunk_args) = chunk_args.
Proof.
  induction chunk_args as [|args chunk_args IH]; [done |].
  rewrite fmap_cons. unfold submitted in *. simpl. f_equal. apply IH.
Qed.

Lemma submitted_Print (msgs : list Message) :
  submitted (Print <$> msgs) = [].
Proof. induction msgs as [|m msgs IH]; [done | apply IH]. Qed.

Lemma submitted_finish (out : string + list PyValue) :
  submitted (finish w output_file_path out) = [].
Proof.
  destruct out as [e | translated_chunks]; [done |]. unfold finish, save.
  destruct (assemble translated_chunks) as [e | translated_text]; [done |].
  by destruct (write_file w _ _).
Qed.

(** The chunks a run submits are the chunks it keeps, with their
    positions. *)
Lemma submitted_run (text : string) :
  read_file w input_file_path = inl text →
  0 < workers →
  ∃ trace,
    translate_file w input_file_path output_file_path from_lang to_lang
      token endpoint max_length max_requests workers verbose = Some trace
    ∧ submitted trace
      = make_chunk_args from_lang to_lang token endpoint verbose
          (limit_chunks max_requests
             (split_text_into_chunks text max_length)).
Proof.
  intros Hread Hworkers.
  destruct (translate_file_run text Hread Hworkers)
    as (futures & msgs & out & _ & _ & Hrun).
  eexists. split; [exact Hrun |].
  rewrite !submitted_app, submitted_Submit, submitted_Print, submitted_finish.
  simpl. by rewrite app_nil_r.
Qed.

End run.

(** The slice [chunks[:max_requests]] keeps the first
    [min(len(chunks), max_requests)] chunks. *)
Lemma limit_chunks_min (max_requests : Z) (chunks : list string) :
  limit_chunks max_requests chunks
  = if decide (0 < max_requests)
    then take (Z.to_nat (Z.min (Z.of_nat (length chunks)) max_requests)) chunks
    else chunks.
Proof.
  unfold limit_chunks. destruct (decide (0 < max_requests)) as [Hpos | Hneg].
  - assert ((max_requests >? 0) = true) as -> by lia.
    destruct (decide (Z.of_nat (length chunks) <= max_requests)).
    + rewrite Z.min_l by done. rewrite !take_ge; [done | lia | lia].
    + rewrite Z.min_r by lia. done.
  - by assert ((max_requests >? 0) = false) as -> by lia.
Qed.

Lemma limit_chunks_length (max_requests : Z) (chunks : list string) :
  length (limit_chunks max_requests chunks)
  = if decide (0 < max_requests)
    then Z.to_nat (Z.min (Z.of_nat (length chunks)) max_requests)
    else length chunks.
Proof.
  rewrite limit_chunks_min. destruct (decide (0 < max_requests)); [| done].
  rewrite length_take. lia.
Qed.

Lemma limit_chunks_lookup (max_requests : Z) (chunks : list string)
    (i : nat) :
  (i < length (limit_chunks max_requests chunks))%nat →
  limit_chunks max_requests chunks !! i = chunks !! i.
Proof.
  rewrite limit_chunks_length. unfold limit_chunks.
  destruct (decide (0 < max_requests)) as [Hpos | Hneg]; intros Hi.
  - assert ((max_requests >? 0) = true) as -> by lia.
    apply lookup_take_lt. lia.
  - by assert ((max_requests >? 0) = false) as -> by lia.
Qed.

(** C7, as stated, fails: the chunks are submitted to the pool, and with
    [workers] 0 or negative the pool cannot be made. With a readable input
    of three chunks, a cap of 2 and no worker, the run prints the error of
    the pool and submits nothing, not the chunks 0 and 1. *)
Lemma no_worker_submits_nothing :
  ¬ (∀ (w : World)
       (input_file_path output_file_path from_lang to_lang token endpoint
          text : string)
       (max_length max_requests workers : Z) (verbose : bool),
       read_file w input_file_path = inl text →
       ∃ trace,
         translate_file w input_file_path output_file_path from_lang to_lang
           token endpoint max_length max_requests workers verbose
         = Some trace
         ∧ chunk <$> submitted trace
           = let chunks := split_text_into_chunks text max_length in
             if decide (0 < max_requests)
             then take (Z.to_nat (Z.min (Z.of_nat (length chunks))
                                    max_requests)) chunks
             else chunks).
Proof.
  intros Hclaim.
  destruct (Hclaim plain_world "in.txt" "out.txt" "Automatic" "Polish"
              "secret" "url" three_lines 6 2 0 false eq_refl)
    as (trace & Hrun & Hsubmitted).
  vm_compute in Hrun. injection Hrun as <-.
  vm_compute in Hsubmitted. discriminate Hsubmitted.
Qed.

(** C7, amended: in every run that can read its input and has a positive
    number of workers, the chunks submitted are exactly the first
    [min(N, max_requests)] chunks of the chunker when [max_requests > 0],
    and all [N] chunks when [max_requests] is 0 or negative: that many
    chunks are submitted, and the one submitted at position [i] carries
    the [i]-th chunk of the chunker, the index [i] and the languages,
    token, endpoint and verbosity of the run. *)
Theorem submitted_chunks_are_capped (w : World)
    (input_file_path output_file_path from_lang to_lang token endpoint
       text : string)
    (max_length max_requests workers : Z) (verbose : bool) :
  read_file w input_file_path = inl text →
  0 < workers →
  ∃ trace,
    translate_file w input_file_path output_file_path from_lang to_lang
      token endpoint max_length max_requests workers verbose = Some trace
    ∧ let chunks := split_text_into_chunks text max_length in
      let n :=
        if decide (0 < max_requests)
        then Z.to_nat (Z.min (Z.of_nat (length chunks)) max_requests)
        else length chunks in
      length (submitted trace) = n
      ∧ ∀ i, (i < n)%nat →
          ∃ c, chunks !! i = Some c
               ∧ submitted trace !! i
                 = Some {| chunk := c; from_lang := from_lang;
                           to_lang := to_lang; token := token;
                           endpoint := endpoint; verbose := verbose;
                           chunk_idx := i |}.
Proof.
  intros Hread Hworkers.
  destruct (submitted_run w input_file_path output_file_path from_lang
              to_lang token endpoint max_length max_requests workers verbose
              text Hread Hworkers)
    as (trace & Hrun & Hsubmitted).
  exists trace. split; [done |]. cbv zeta.
  rewrite Hsubmitted, <- limit_chunks_length. unfold make_chunk_args.
  rewrite length_imap. split; [done |].
  intros i Hi. rewrite list_lookup_imap, limit_chunks_lookup by done.
  destruct (split_text_into_chunks text max_length !! i) as [c |] eqn:Hc.
  - by exists c.
  - rewrite <- (limit_chunks_lookup max_requests) in Hc by done.
    apply lookup_ge_None in Hc. lia.
Qed.

Lemma submitted_chunks_are_capped_witness :
  read_file plain_world "in.txt" = inl three_lines
  ∧ 0 < 3
  ∧ ∃ trace,
      translate_file plain_world "in.txt" "out.txt" "Automatic" "Polish"
        "secret" "url" 6 2 3 false = Some trace
      ∧ let chunks := split_text_into_chunks three_lines 6 in
        let n :=
          if decide (0 < 2)
          then Z.to_nat (Z.min (Z.of_nat (length chunks)) 2)
          else length chunks in
        length (submitted trace) = n
        ∧ ∀ i, (i < n)%nat →
            ∃ c, chunks !! i = Some c
                 ∧ submitted trace !! i
                   = Some {| chunk := c; from_lang := "Automatic";
                             to_lang := "Polish"; token := "secret";
                             endpoint := "url"; verbose := false;
                             chunk_idx := i |}.
Proof.
  assert (read_file plain_world "in.txt" = inl three_lines) as Hread
    by reflexivity.
  assert (0 < 3) as Hworkers by lia.
  exact (conj Hread
          (conj Hworkers
            (submitted_chunks_are_capped plain_world "in.txt" "out.txt"
               "Automatic" "Polish" "secret" "url" three_lines 6 2 3 false
               Hread Hworkers))).
Defined.

(** With a cap of 2, only the chunks 0 and 1 of three are submitted and the
    output holds only their translations. *)
Example cap_of_two :
  translate_file plain_world "in.txt" "out.txt" "Automatic" "Polish"
    "secret" "url" 6 2 3 false
  = Some [OpenRead "in.txt"; Print (MsgStarting 3);
          Submit {| chunk := "line1"; from_lang := "Automatic";
                    to_lang := "Polish"; token := "secret";
                    endpoint := "url"; verbose := false; chunk_idx := 0 |};
          Submit {| chunk := "line2"; from_lang := "Automatic";
                    to_lang := "Polish"; token := "secret";
                    endpoint := "url"; verbose := false; chunk_idx := 1 |};
          Write "out.txt" ("X" +:+ PyStr.newline +:+ "X");
          Print (MsgDone "out.txt")].
Proof. reflexivity. Qed.

(** C1: the code breaks the claim. The input file is read, the second
    chunk is translated, the first chunk is rate limited three times: its
    call leaves the loop and returns Python's [None], unpacking it raises,
    and the run ends with an error line and without writing the output
    file. *)
Theorem rate_limit_exhaustion_aborts_the_run :
  translate_file rate_limited_world "in.txt" "out.txt" "Automatic" "Polish"
    "secret" "url" 1 100 3 false
  = Some [OpenRead "in.txt"; Print (MsgStarting 3);
          Submit {| chunk := "a"; from_lang := "Automatic";
                    to_lang := "Polish"; token := "secret";
                    endpoint := "url"; verbose := false; chunk_idx := 0 |};
          Submit {| chunk := "b"; from_lang := "Automatic";
                    to_lang := "Polish"; token := "secret";
                    endpoint := "url"; verbose := false; chunk_idx := 1 |};
          Print (MsgError "cannot unpack non-iterable NoneType object")].
Proof. reflexivity. Qed.

(** C9: when [--token] is not given, the credential is the value of
    [KAGI_TOKEN]; when that is not set either, the run is the one line
    of the missing-token message: no file is opened and no chunk is
    submitted. *)
Theorem main_token_fallback (w : World) (environ : gmap string string)
    (arguments : Arguments) :
  arg_token arguments = None →
  (∀ value,
     environ !! "KAGI_TOKEN" = Some value → value ≠ "" →
     main w environ arguments
     = translate_file w (arg_input_file arguments)
         (arg_output_file arguments) (arg_from arguments) (arg_to arguments)
         value (arg_endpoint arguments) (arg_max_length arguments)
         (arg_max_requests arguments) (arg_workers arguments)
         (arg_verbose arguments))
  ∧ (environ !! "KAGI_TOKEN" = None →
     main w environ arguments = Some [Print MsgNoToken]).
Proof.
  intros Htoken. unfold main. rewrite Htoken. simpl. split.
  - intros value -> Hvalue. simpl.
    apply PyStrFacts.truthy_true in Hvalue. by rewrite Hvalue.
  - by intros ->.
Qed.

Lemma main_token_fallback_witness :
  arg_token no_token_arguments = None
  ∧ main plain_world {["KAGI_TOKEN" := "secret"]} no_token_arguments
    = translate_file plain_world "in.txt" "out.txt" "Automatic" "Polish"
        "secret" "https://translate.kagi.com/?/translate" 1500 100 3 false
  ∧ main plain_world ∅ no_token_arguments = Some [Print MsgNoToken].
Proof.
  assert (arg_token no_token_arguments = None) as Htoken by reflexivity.
  split; [exact Htoken |]. split.
  - apply (proj1 (main_token_fallback plain_world
                    {["KAGI_TOKEN" := "secret"]} no_token_arguments Htoken)
             "secret"); [apply lookup_singleton_eq | discriminate].
  - apply (proj2 (main_token_fallback plain_world ∅ no_token_arguments
                    Htoken)). apply lookup_empty.
Defined.

(** * Further properties *)

(** ** The chunker *)

Section chunks.
Import PyStr PyStrFacts.
Variable max_length : Z.

(** No chunk is closed empty. *)
Lemma flush_fold_no_empty (lines chunks : list string) (cur : string) :
  Forall (λ c, c ≠ "") chunks →
  Forall (λ c, c ≠ "")
    (flush (fold_left (chunk_step max_length) lines (chunks, cur))).
Proof.
  revert chunks cur.
  induction lines as [|line lines IH]; intros chunks cur Hchunks.
  - simpl. destruct (truthy cur) eqn:Hcur; [| done].
    apply Forall_app. split; [done |]. apply Forall_singleton.
    by apply truthy_true.
  - rewrite fold_chunk_step_cons. destruct (truthy cur) eqn:Hcur.
    + rewrite chunk_step_truthy by done. destruct (_ >? _).
      * apply IH, Forall_app. split; [done |]. apply Forall_singleton.
        by apply truthy_true.
      * by apply IH.
    + apply truthy_false in Hcur as ->. rewrite chunk_step_empty.
      by apply IH.
Qed.

(** A line without newline is its own only line. *)
Lemma split_lines_single (s : string) :
  Forall (λ line, split line = [line]) (split s).
Proof.
  induction s as [|c s IH]; [by repeat constructor |].
  simpl split. destruct (Ascii.eqb c newline_char) eqn:Hc.
  - by constructor.
  - pose proof (split_not_nil s) as Hne.
    destruct (split s) as [|line lines]; [done |].
    apply Forall_cons in IH as [Hline Hlines].
    constructor; [| done]. simpl split. by rewrite Hc, Hline.
Qed.

(** The lines of two texts glued with a newline. *)
Lemma split_glue (s1 s2 : string) :
  split ((s1 +:+ newline) +:+ s2) = split s1 ++ split s2.
Proof.
  rewrite str_app_assoc.
  induction s1 as [|c s1 IH]; [done |].
  rewrite app_cons. simpl split. destruct (Ascii.eqb c newline_char).
  - by rewrite IH.
  - rewrite IH. pose proof (split_not_nil s1) as Hne.
    by destruct (split s1).
Qed.

Lemma filter_split_empty (before lines : list string) :
  filter (λ line, line ≠ "") (before ++ split "" ++ lines)
  = filter (λ line, line ≠ "") (before ++ lines).
Proof.
  rewrite !(filter_app _ before). by f_equal.
Qed.

Lemma lines_of_snoc (chunks : list string) (c : string) :
  lines_of (chunks ++ [c]) = lines_of chunks ++ split c.
Proof.
  unfold lines_of. rewrite fmap_app, concat_app. simpl. by rewrite app_nil_r.
Qed.

(** The lines that are not empty go through the loop unchanged and in
    order. *)
Lemma lines_of_fold (lines chunks : list string) (cur : string) :
  Forall (λ line, split line = [line]) lines →
  filter (λ line, line ≠ "")
    (lines_of (flush (fold_left (chunk_step max_length) lines (chunks, cur))))
  = filter (λ line, line ≠ "") (lines_of chunks ++ split cur ++ lines).
Proof.
  intros Hlines. revert chunks cur.
  induction Hlines as [|line lines Hline _ IH]; intros chunks cur.
  - simpl fold_left. unfold flush. destruct (truthy cur) eqn:Hcur.
    + by rewrite lines_of_snoc, app_nil_r.
    + apply truthy_false in Hcur as ->.
      by rewrite filter_split_empty, app_nil_r.
  - rewrite fold_chunk_step_cons. destruct (truthy cur) eqn:Hcur.
    + rewrite chunk_step_truthy by done. destruct (_ >? _).
      * rewrite IH, lines_of_snoc, Hline. by rewrite <- !app_assoc.
      * rewrite IH, split_glue, Hline. by rewrite <- !app_assoc.
    + apply truthy_false in Hcur as ->. rewrite chunk_step_empty, IH, Hline.
      by rewrite filter_split_empty.
Qed.

(** Below two characters every line that is not empty is a chunk. *)
Lemma fold_one_line_per_chunk (lines chunks : list string) (cur : string) :
  max_length <= 1 →
  flush (fold_left (chunk_step max_length) lines (chunks, cur))
  = chunks ++ filter (λ line, line ≠ "") (cur :: lines).
Proof.
  intros Hmax. revert chunks cur.
  induction lines as [|line lines IH]; intros chunks cur.
  - simpl. destruct (truthy cur) eqn:Hcur.
    + apply truthy_true in Hcur. by rewrite filter_cons_True.
    + apply truthy_false in Hcur as ->. by rewrite app_nil_r.
  - rewrite fold_chunk_step_cons. destruct (truthy cur) eqn:Hcur.
    + rewrite chunk_step_truthy by done.
      assert (1 <= len cur) as Hlen.
      { destruct cur; [done |]. unfold len. simpl String.length. lia. }
      pose proof (len_nonneg line).
      assert ((len cur + len line + 1 >? max_length) = true) as -> by lia.
      apply truthy_true in Hcur.
      rewrite IH, (filter_cons_True _ cur) by done.
      by rewrite <- app_assoc.
    + apply truthy_false in Hcur as ->. rewrite chunk_step_empty, IH.
      by rewrite (filter_cons_False _ "") by (intros Hne; by apply Hne).
Qed.

(** A buffer that, with the lines still to come, fits in the bound is
    never closed before the end. *)
Lemma fold_fits (lines : list string) (cur : string) :
  truthy cur = true →
  len (join newline (cur :: lines)) <= max_length →
  fold_left (chunk_step max_length) lines ([], cur)
  = ([], join newline (cur :: lines)).
Proof.
  revert cur. induction lines as [|line lines IH]; intros cur Hcur Hfits.
  - done.
  - rewrite fold_chunk_step_cons, chunk_step_truthy by done.
    assert (len cur + len line + 1 <= len (join newline (cur :: line :: lines)))
      as Hlen.
    { rewrite join_cons by done. rewrite !len_app, len_newline.
      destruct lines as [|line' lines].
      - simpl join. lia.
      - rewrite join_cons by done. rewrite len_app.
        pose proof (len_nonneg (newline +:+ join newline (line' :: lines))).
        lia. }
    assert ((len cur + len line + 1 >? max_length) = false) as -> by lia.
    pose proof (join_glue newline cur line [] lines) as Hglue.
    simpl app in Hglue.
    rewrite IH; [by rewrite Hglue | | by rewrite Hglue].
    destruct cur; [done | done].
Qed.

End chunks.

(** X1: no chunk is the empty string, whatever the text and the bound; the
    empty text has no chunks at all. *)
Theorem chunks_are_not_empty (text : string) (max_length : Z) :
  Forall (λ c, c ≠ "") (split_text_into_chunks text max_length)
  ∧ split_text_into_chunks "" max_length = [].
Proof.
  split.
  - rewrite split_text_into_chunks_fold. by apply flush_fold_no_empty.
  - rewrite split_text_into_chunks_fold.
    change (PyStr.split "") with [""].
    by rewrite fold_chunk_step_cons, chunk_step_empty.
Qed.

(** X2: chunking loses nothing but empty lines: the lines of the chunks
    that are not empty are the lines of the text that are not empty, in
    the same order, for every bound. *)
Theorem chunks_keep_the_lines (text : string) (max_length : Z) :
  filter (λ line, line ≠ "")
    (lines_of (split_text_into_chunks text max_length))
  = filter (λ line, line ≠ "") (PyStr.split text).
Proof.
  rewrite split_text_into_chunks_fold, lines_of_fold
    by apply split_lines_single.
  apply (filter_split_empty []).
Qed.

(** X3: with a bound of 1, 0 or a negative bound, no two lines share a
    chunk: the chunks are the lines of the text that are not empty. *)
Theorem one_chunk_per_line (text : string) (max_length : Z) :
  max_length <= 1 →
  split_text_into_chunks text max_length
  = filter (λ line, line ≠ "") (PyStr.split text).
Proof.
  intros Hmax.
  rewrite split_text_into_chunks_fold, fold_one_line_per_chunk by done.
  simpl app. apply filter_cons_False. intros Hne. by apply Hne.
Qed.

Lemma one_chunk_per_line_witness :
  0 <= 1
  ∧ split_text_into_chunks three_lines 0
    = filter (λ line, line ≠ "") (PyStr.split three_lines).
Proof.
  assert (0 <= 1) as Hmax by lia.
  exact (conj Hmax (one_chunk_per_line three_lines 0 Hmax)).
Defined.

(** X4: a text that does not begin with a newline and is not longer than
    the bound is one chunk, the text itself. *)
Theorem text_that_fits_is_one_chunk (text : string) (max_length : Z) :
  hd "" (PyStr.split text) ≠ "" →
  PyStr.len text <= max_length →
  split_text_into_chunks text max_length = [text].
Proof.
  intros Hfirst Hfits. rewrite split_text_into_chunks_fold.
  pose proof (PyStrFacts.join_split text) as Hjoin.
  destruct (PyStr.split text) as [|line lines]; [done |].
  simpl in Hfirst. apply PyStrFacts.truthy_true in Hfirst.
  rewrite fold_chunk_step_cons, chunk_step_empty.
  rewrite fold_fits by (by rewrite ?Hjoin).
  rewrite Hjoin. unfold flush.
  assert (PyStr.truthy text = true) as ->; [| done].
  rewrite <- Hjoin. destruct line as [|c line]; [done |].
  destruct lines; [done |].
  by rewrite PyStrFacts.join_cons, PyStrFacts.app_cons.
Qed.

Lemma text_that_fits_is_one_chunk_witness :
  hd "" (PyStr.split three_lines) ≠ ""
  ∧ PyStr.len three_lines <= 100
  ∧ split_text_into_chunks three_lines 100 = [three_lines].
Proof.
  assert (hd "" (PyStr.split three_lines) ≠ "") as Hfirst by discriminate.
  assert (PyStr.len three_lines <= 100) as Hfits by (by vm_compute).
  exact (conj Hfirst
          (conj Hfits
            (text_that_fits_is_one_chunk three_lines 100 Hfirst Hfits))).
Defined.

Section greedy.
Import PyStr PyStrFacts.
Variable max_length : Z.

Lemma greedy_snoc (chunks : list string) (c : string) :
  greedy max_length chunks →
  (∀ c1, last chunks = Some c1 →
         len c1 + len (first_line c) + 1 > max_length) →
  greedy max_length (chunks ++ [c]).
Proof.
  intros Hchunks Hlast i c1 c2 Hc1 Hc2.
  destruct (decide (S i < length chunks)%nat) as [Hlt | Hge].
  - rewrite lookup_app_l in Hc1 by lia. rewrite lookup_app_l in Hc2 by lia.
    by eapply Hchunks.
  - assert (S i = length chunks) as Hi.
    { apply lookup_lt_Some in Hc2. rewrite length_app in Hc2.
      simpl in Hc2. lia. }
    rewrite lookup_app_l in Hc1 by lia.
    rewrite Hi, lookup_app_r, Nat.sub_diag in Hc2 by lia.
    injection Hc2 as <-. apply Hlast.
    rewrite last_lookup. by rewrite <- Hi.
Qed.

Lemma first_line_single (line : string) :
  split line = [line] → first_line line = line.
Proof. unfold first_line. by intros ->. Qed.

Lemma first_line_glue (cur line : string) :
  first_line ((cur +:+ newline) +:+ line) = first_line cur.
Proof.
  unfold first_line. rewrite split_glue.
  pose proof (split_not_nil cur) as Hne. by destruct (split cur).
Qed.

(** The loop closes a chunk only when the next line does not fit. *)
Lemma greedy_fold (lines chunks : list string) (cur : string) :
  Forall (λ line, split line = [line]) lines →
  greedy max_length chunks →
  (∀ c1, last chunks = Some c1 →
         len c1 + len (first_line cur) + 1 > max_length) →
  greedy max_length
    (flush (fold_left (chunk_step max_length) lines (chunks, cur))).
Proof.
  intros Hlines. revert chunks cur.
  induction Hlines as [|line lines Hline _ IH]; intros chunks cur Hchunks Hlast.
  - simpl. destruct (truthy cur); [by apply greedy_snoc | done].
  - rewrite fold_chunk_step_cons. destruct (truthy cur) eqn:Hcur.
    + rewrite chunk_step_truthy by done.
      destruct (len cur + len line + 1 >? max_length) eqn:Hfull.
      * apply IH; [by apply greedy_snoc |].
        intros c1. rewrite last_snoc. intros [= <-].
        rewrite first_line_single by done. lia.
      * apply IH; [done |]. intros c1 Hc1. rewrite first_line_glue.
        by apply Hlast.
    + apply truthy_false in Hcur as ->. rewrite chunk_step_empty.
      apply IH; [done |]. intros c1 Hc1. specialize (Hlast c1 Hc1).
      rewrite first_line_single by done.
      change (len (first_line "")) with 0 in Hlast.
      pose proof (len_nonneg line). lia.
Qed.

Lemma chunks_greedy (text : string) :
  greedy max_length (split_text_into_chunks text max_length).
Proof.
  rewrite split_text_into_chunks_fold.
  apply greedy_fold; [apply split_lines_single | |]; by intros [].
Qed.

End greedy.

(** X5: the chunker is greedy: a chunk is closed only when the next line
    does not fit behind it, so for two chunks that follow each other the
    first one, a newline and the first line of the second one are longer
    than [max_length]. *)
Theorem chunk_is_closed_only_when_full (text : string) (max_length : Z)
    (i : nat) (c1 c2 : string) :
  split_text_into_chunks text max_length !! i = Some c1 →
  split_text_into_chunks text max_length !! S i = Some c2 →
  PyStr.len c1 + PyStr.len (first_line c2) + 1 > max_length.
Proof. apply chunks_greedy. Qed.

Lemma chunk_is_closed_only_when_full_witness :
  split_text_into_chunks three_lines 6 !! 0%nat = Some "line1"
  ∧ split_text_into_chunks three_lines 6 !! 1%nat = Some "line2"
  ∧ PyStr.len "line1" + PyStr.len (first_line "line2") + 1 > 6.
Proof.
  assert (split_text_into_chunks three_lines 6 !! 0%nat = Some "line1")
    as Hfirst by reflexivity.
  assert (split_text_into_chunks three_lines 6 !! 1%nat = Some "line2")
    as Hsecond by reflexivity.
  exact (conj Hfirst
          (conj Hsecond
            (chunk_is_closed_only_when_full three_lines 6 0 "line1" "line2"
               Hfirst Hsecond))).
Defined.

(** ** The translation client *)

Section attempts.
Variable remote : Remote.
Variable args : ChunkArgs.

Lemma prepend_Some_inv (evs : list ClientEvent)
    (r : option (ChunkReturn * list ClientEvent)) (ret : ChunkReturn)
    (tr : list ClientEvent) :
  prepend evs r = Some (ret, tr) → ∃ tr', r = Some (ret, tr').
Proof.
  destruct r as [[ret' tr'] |]; [| done]. simpl.
  intros [= -> _]. by exists tr'.
Qed.

(** A tuple that the loop returns carries the index of the chunk, and a
    result in it that is not [None] was decoded from a success response to
    one of the posts. *)
Lemma retry_loop_tuple (fuel posts : nat) (tries : Z) (idx : nat)
    (result : PyValue) (tr : list ClientEvent) :
  Z.of_nat posts = tries →
  retry_loop fuel remote args posts tries = Some (Tuple idx result, tr) →
  idx = chunk_idx args
  ∧ (result ≠ VNone →
     ∃ n r, (posts ≤ n < 3)%nat ∧ remote args n = Returns r
            ∧ status_code r ≠ 429 ∧ ok r = true
            ∧ decoded r = Some result).
Proof.
  revert posts tries tr.
  induction fuel as [|fuel IH]; intros posts tries tr Hposts Hloop; [done |].
  rewrite retry_loop_S in Hloop.
  destruct (tries <? max_tries) eqn:Htries; [| done].
  assert (∀ evs,
            prepend evs (retry_loop fuel remote args (S posts) (tries + 1))
            = Some (Tuple idx result, tr) →
            idx = chunk_idx args
            ∧ (result ≠ VNone →
               ∃ n r, (posts ≤ n < 3)%nat ∧ remote args n = Returns r
                      ∧ status_code r ≠ 429 ∧ ok r = true
                      ∧ decoded r = Some result)) as Hround.
  { intros evs Hevs. apply prepend_Some_inv in Hevs as [tr' Hnext].
    apply IH in Hnext as [Hidx Hresult]; [| lia].
    split; [done |]. intros Hne.
    destruct (Hresult Hne) as (n & r & Hn & Hr).
    exists n, r. split; [lia | done]. }
  assert (on_failed_attempt fuel remote args posts tries
          = Some (Tuple idx result, tr) →
          idx = chunk_idx args
          ∧ (result ≠ VNone →
             ∃ n r, (posts ≤ n < 3)%nat ∧ remote args n = Returns r
                    ∧ status_code r ≠ 429 ∧ ok r = true
                    ∧ decoded r = Some result)) as Hhandler.
  { unfold on_failed_attempt. destruct (tries + 1 <? max_tries).
    - apply Hround.
    - by intros [= <- <- _]. }
  destruct (remote args posts) as [e | response] eqn:Hremote;
    [by apply Hhandler |].
  destruct (status_code response =? 429) eqn:Hcode; [by eapply Hround |].
  destruct (negb (ok response)) eqn:Hok; [by injection Hloop as <- <- _ |].
  destruct (decoded response) as [translated_text |] eqn:Hdecoded;
    [| by apply Hhandler].
  destruct (verbose args && negb (has_len translated_text));
    [by apply Hhandler |].
  injection Hloop as <- <- _. split; [done |].
  intros _. exists posts, response.
  apply negb_false_iff in Hok. unfold max_tries in Htries.
  repeat split; [lia | lia | done | lia | done | done].
Qed.

(** While the third post is not rate limited, the loop returns a tuple. *)
Lemma retry_loop_returns_tuple (fuel posts : nat) (tries : Z) :
  Z.of_nat posts = tries →
  tries < max_tries →
  (Z.to_nat (max_tries - tries) < fuel)%nat →
  ¬ rate_limited (remote args 2%nat) →
  ∃ result tr,
    retry_loop fuel remote args posts tries
    = Some (Tuple (chunk_idx args) result, tr).
Proof.
  intros Hposts Htries Hfuel Hthird. revert posts tries Hposts Htries Hfuel.
  induction fuel as [|fuel IH]; intros posts tries Hposts Htries Hfuel;
    [lia |].
  rewrite retry_loop_S.
  assert ((tries <? max_tries) = true) as -> by lia.
  assert (∀ evs,
            tries + 1 < max_tries →
            ∃ result tr,
              prepend evs (retry_loop fuel remote args (S posts) (tries + 1))
              = Some (Tuple (chunk_idx args) result, tr)) as Hround.
  { intros evs Hnext.
    destruct (IH (S posts) (tries + 1)) as (result & tr & Hloop);
      [lia | done | lia |].
    rewrite Hloop. by eexists _, _. }
  assert (∃ result tr,
            on_failed_attempt fuel remote args posts tries
            = Some (Tuple (chunk_idx args) result, tr)) as Hhandler.
  { unfold on_failed_attempt.
    destruct (tries + 1 <? max_tries) eqn:Hnext.
    - apply Hround. lia.
    - by eexists _, _. }
  destruct (remote args posts) as [e | response] eqn:Hremote; [done |].
  destruct (status_code response =? 429) eqn:Hcode.
  - apply Hround. unfold max_tries in *.
    destruct (decide (posts = 2%nat)) as [-> | Hne]; [| lia].
    exfalso. apply Hthird. rewrite Hremote. simpl. lia.
  - destruct (negb (ok response)); [by eexists _, _ |].
    destruct (decoded response) as [translated_text |]; [| done].
    destruct (verbose args && negb (has_len translated_text));
      [done | by eexists _, _].
Qed.

(** A rate-limited post costs one try and a sleep of
    [5 + uniform(2 * tries, 4 * tries)] seconds. *)
Lemma retry_loop_rate_limited (fuel posts : nat) (tries : Z) :
  tries < max_tries →
  rate_limited (remote args posts) →
  retry_loop (S fuel) remote args posts tries
  = prepend [Post posts; SleepRateLimit (tries * 2) (tries * 4)]
      (retry_loop fuel remote args (S posts) (tries + 1)).
Proof.
  intros Htries Hlimited. rewrite retry_loop_S.
  assert ((tries <? max_tries) = true) as -> by lia.
  destruct (remote args posts) as [e | response]; [done |].
  simpl in Hlimited. by rewrite Hlimited.
Qed.

(** Three rate-limited posts: the call returns Python's [None]. *)
Lemma translate_chunk_rate_limited :
  (∀ n, (n < 3)%nat → rate_limited (remote args n)) →
  ∃ tr, translate_chunk enough_fuel remote args = Some (ReturnsNone, tr).
Proof.
  intros Hlimited. unfold translate_chunk. change enough_fuel with 4%nat.
  rewrite 3!retry_loop_rate_limited
    by first [apply Hlimited; lia | unfold max_tries; lia].
  rewrite retry_loop_S. by eexists.
Qed.


End attempts.

(** X6: a tuple returned by [translate_chunk] carries the index of the
    chunk it was called for. *)
Theorem translate_chunk_keeps_the_index (fuel : nat) (remote : Remote)
    (args : ChunkArgs) (idx : nat) (result : PyValue)
    (tr : list ClientEvent) :
  translate_chunk fuel remote args = Some (Tuple idx result, tr) →
  idx = chunk_idx args.
Proof.
  intros Hcall. apply prepend_Some_inv in Hcall as [tr' Hloop].
  by apply retry_loop_tuple in Hloop as [Hidx _].
Qed.

Lemma translate_chunk_keeps_the_index_witness :
  translate_chunk 4 always_raises hello_args
  = Some (Tuple 0 VNone,
          [SleepJitter; Post 0; Sleep 2; Post 1; Sleep 4; Post 2])
  ∧ 0%nat = chunk_idx hello_args.
Proof.
  assert (translate_chunk 4 always_raises hello_args
          = Some (Tuple 0 VNone,
                  [SleepJitter; Post 0; Sleep 2; Post 1; Sleep 4; Post 2]))
    as Hcall by reflexivity.
  exact (conj Hcall
          (translate_chunk_keeps_the_index 4 always_raises hello_args 0 VNone
             _ Hcall)).
Defined.

(** X7: unless the third post is rate limited, the call returns a tuple
    for its chunk, never Python's [None]. *)
Theorem translate_chunk_returns_a_tuple (fuel : nat) (remote : Remote)
    (args : ChunkArgs) :
  (enough_fuel ≤ fuel)%nat →
  ¬ rate_limited (remote args 2%nat) →
  ∃ result tr,
    translate_chunk fuel remote args
    = Some (Tuple (chunk_idx args) result, tr).
Proof.
  intros Hfuel Hthird. unfold translate_chunk.
  destruct (retry_loop_returns_tuple remote args fuel 0 0)
    as (result & tr & Hloop); [done | done | | done |].
  { unfold enough_fuel in Hfuel. change (max_tries - 0) with max_tries. lia. }
  rewrite Hloop. by eexists _, _.
Qed.

Lemma translate_chunk_returns_a_tuple_witness :
  (enough_fuel ≤ 4)%nat
  ∧ ¬ rate_limited (always_status 500 hello_args 2%nat)
  ∧ ∃ result tr,
      translate_chunk 4 (always_status 500) hello_args
      = Some (Tuple (chunk_idx hello_args) result, tr).
Proof.
  assert (enough_fuel ≤ 4)%nat as Hfuel by (vm_compute; lia).
  assert (¬ rate_limited (always_status 500 hello_args 2%nat)) as Hthird
    by (simpl; lia).
  exact (conj Hfuel
          (conj Hthird
            (translate_chunk_returns_a_tuple 4 (always_status 500) hello_args
               Hfuel Hthird))).
Defined.

(** X8: a text that [translate_chunk] returns was decoded from the payload
    of a success response (not an error status, not 429) to one of its
    three posts. *)
Theorem translated_text_comes_from_the_endpoint (fuel : nat)
    (remote : Remote) (args : ChunkArgs) (idx : nat) (text : string)
    (tr : list ClientEvent) :
  translate_chunk fuel remote args = Some (Tuple idx (VStr text), tr) →
  ∃ n r, (n < 3)%nat ∧ remote args n = Returns r
         ∧ status_code r ≠ 429 ∧ ok r = true
         ∧ decoded r = Some (VStr text).
Proof.
  intros Hcall. apply prepend_Some_inv in Hcall as [tr' Hloop].
  apply retry_loop_tuple in Hloop as [_ Hresult]; [| done].
  destruct Hresult as (n & r & Hn & Hr); [done |].
  exists n, r. split; [lia | done].
Qed.

Lemma translated_text_comes_from_the_endpoint_witness :
  translate_chunk 4 (remote plain_world) hello_args
  = Some (Tuple 0 (VStr "X"), [SleepJitter; Post 0])
  ∧ ∃ n r, (n < 3)%nat ∧ remote plain_world hello_args n = Returns r
           ∧ status_code r ≠ 429 ∧ ok r = true
           ∧ decoded r = Some (VStr "X").
Proof.
  assert (translate_chunk 4 (remote plain_world) hello_args
          = Some (Tuple 0 (VStr "X"), [SleepJitter; Post 0]))
    as Hcall by reflexivity.
  exact (conj Hcall
          (translated_text_comes_from_the_endpoint 4 (remote plain_world)
             hello_args 0 "X" _ Hcall)).
Defined.

(** X9: when all three posts are rate limited, the call sleeps after each
    of them, also after the third, and then returns Python's [None], not a
    tuple. *)
Theorem three_rate_limits_return_none (fuel : nat) (remote : Remote)
    (args : ChunkArgs) :
  (enough_fuel ≤ fuel)%nat →
  (∀ n, (n < 3)%nat → rate_limited (remote args n)) →
  translate_chunk fuel remote args
  = Some (ReturnsNone,
          [SleepJitter; Post 0; SleepRateLimit 0 0; Post 1;
           SleepRateLimit 2 4; Post 2; SleepRateLimit 4 8]).
Proof.
  intros Hfuel Hlimited. unfold translate_chunk.
  change enough_fuel with 4%nat in Hfuel.
  do 4 (destruct fuel as [|fuel]; [lia |]).
  rewrite 3!retry_loop_rate_limited
    by first [apply Hlimited; lia | unfold max_tries; lia].
  by rewrite retry_loop_S.
Qed.

Lemma three_rate_limits_return_none_witness :
  (enough_fuel ≤ 4)%nat
  ∧ (∀ n, (n < 3)%nat → rate_limited (always_status 429 hello_args n))
  ∧ translate_chunk 4 (always_status 429) hello_args
    = Some (ReturnsNone,
            [SleepJitter; Post 0; SleepRateLimit 0 0; Post 1;
             SleepRateLimit 2 4; Post 2; SleepRateLimit 4 8]).
Proof.
  assert (enough_fuel ≤ 4)%nat as Hfuel by (vm_compute; lia).
  assert (∀ n, (n < 3)%nat → rate_limited (always_status 429 hello_args n))
    as Hlimited by (intros n _; reflexivity).
  exact (conj Hfuel
          (conj Hlimited
            (three_rate_limits_return_none 4 (always_status 429) hello_args
               Hfuel Hlimited))).
Defined.

Section success.
Variable remote : Remote.
Variable args : ChunkArgs.

(** After posts that are retried, a success response with a payload that
    decodes to a text ends the loop with the text. *)
Lemma retry_loop_success (n : nat) (response : Response) (text : string)
    (k fuel posts : nat) :
  (n < 3)%nat →
  (∀ m, (m < n)%nat →
        failed_attempt (verbose args) (remote args m)
        ∨ rate_limited (remote args m)) →
  remote args n = Returns response →
  status_code response ≠ 429 → ok response = true →
  decoded response = Some (VStr text) →
  (posts + k = n)%nat →
  (k < fuel)%nat →
  ∃ tr,
    retry_loop fuel remote args posts (Z.of_nat posts)
    = Some (Tuple (chunk_idx args) (VStr text), tr)
    ∧ posts_of tr = S k.
Proof.
  intros Hn Hretried Hremote Hcode Hok Hdecoded. revert fuel posts.
  induction k as [|k IH]; intros fuel posts Hposts Hfuel;
    (destruct fuel as [|fuel]; [lia |]); rewrite retry_loop_S;
    (assert ((Z.of_nat posts <? max_tries) = true) as ->
       by (unfold max_tries; lia)).
  - assert (posts = n) as -> by lia. rewrite Hremote.
    assert ((status_code response =? 429) = false) as -> by lia.
    rewrite Hok, Hdecoded. simpl negb. rewrite andb_false_r. cbv iota.
    by eexists.
  - destruct (IH fuel (S posts)) as (tr & Hloop & Hcount); [lia | lia |].
    replace (Z.of_nat (S posts)) with (Z.of_nat posts + 1) in Hloop by lia.
    assert (on_failed_attempt fuel remote args posts (Z.of_nat posts)
            = Some (Tuple (chunk_idx args) (VStr text),
                    [Post posts; Sleep (2 * (Z.of_nat posts + 1))] ++ tr))
      as Hhandler.
    { unfold on_failed_attempt.
      assert ((Z.of_nat posts + 1 <? max_tries) = true) as ->
        by (unfold max_tries; lia).
      by rewrite Hloop. }
    destruct (Hretried posts) as [Hfailed | Hlimited]; [lia | |].
    + destruct (remote args posts) as [e | response'].
      * rewrite Hhandler. eexists. split; [done |].
        rewrite posts_of_round; auto.
      * destruct Hfailed as (Hcode' & Hok' & Hdecoded').
        assert ((status_code response' =? 429) = false) as -> by lia.
        rewrite Hok'. simpl negb. cbv iota.
        destruct (decoded response') as [translated_text |].
        -- destruct Hdecoded' as [-> ->]. simpl andb. cbv iota.
           rewrite Hhandler. eexists. split; [done |].
           rewrite posts_of_round; auto.
        -- rewrite Hhandler. eexists. split; [done |].
           rewrite posts_of_round; auto.
    + destruct (remote args posts) as [e | response']; [done |].
      simpl in Hlimited. rewrite Hlimited. simpl Z.eqb. cbv iota.
      rewrite Hloop. eexists. split; [done |]. rewrite posts_of_round; auto.
Qed.

End success.

(** X10: the first success response ends the call with its text: when the
    posts before the [n]-th one (at most two) each raise, carry a payload
    that does not decode or are rate limited, and the [n]-th response is a
    success whose payload decodes to a text, the call returns that text
    with the index of the chunk after exactly [n + 1] posts. *)
Theorem first_success_is_returned (fuel : nat) (remote : Remote)
    (args : ChunkArgs) (n : nat) (response : Response) (text : string) :
  (enough_fuel ≤ fuel)%nat →
  (n < 3)%nat →
  (∀ m, (m < n)%nat →
        failed_attempt (verbose args) (remote args m)
        ∨ rate_limited (remote args m)) →
  remote args n = Returns response →
  status_code response ≠ 429 → ok response = true →
  decoded response = Some (VStr text) →
  ∃ tr,
    translate_chunk fuel remote args
    = Some (Tuple (chunk_idx args) (VStr text), tr)
    ∧ posts_of tr = S n.
Proof.
  intros Hfuel Hn Hretried Hremote Hcode Hok Hdecoded.
  change enough_fuel with 4%nat in Hfuel.
  destruct (retry_loop_success remote args n response text n fuel 0
              Hn Hretried Hremote Hcode Hok Hdecoded)
    as (tr & Hloop & Hcount); [done | lia |].
  unfold translate_chunk. change (Z.of_nat 0) with 0 in Hloop.
  rewrite Hloop. eexists. split; [done |].
  rewrite posts_of_app. change (posts_of [SleepJitter]) with 0%nat. lia.
Qed.

Lemma first_success_is_returned_witness :
  ∃ tr,
    translate_chunk 4 third_time_lucky hello_args
    = Some (Tuple (chunk_idx hello_args) (VStr "czesc"), tr)
    ∧ posts_of tr = 3%nat.
Proof.
  apply (first_success_is_returned 4 third_time_lucky hello_args 2
           {| status_code := 200; decoded := Some (VStr "czesc") |} "czesc").
  - change enough_fuel with 4%nat. lia.
  - lia.
  - intros [|[|m]] Hm; [left; exact I | right; reflexivity | lia].
  - reflexivity.
  - simpl. lia.
  - reflexivity.
  - reflexivity.
Defined.

(** ** The collector *)

(** A future that returned Python's [None] ends the loop with the
    [TypeError] of the unpacking. *)
Lemma collect_none (completed : list ChunkReturn)
    (translated_chunks : list PyValue) :
  ReturnsNone ∈ completed →
  Forall (λ ret, match ret with
                 | Tuple idx _ => (idx < length translated_chunks)%nat
                 | ReturnsNone => True
                 end) completed →
  ∃ msgs, collect completed translated_chunks = (msgs, inl cannot_unpack).
Proof.
  revert translated_chunks.
  induction completed as [|[idx result |] completed IH];
    intros translated_chunks Hin Hrange.
  - by apply elem_of_nil in Hin.
  - apply elem_of_cons in Hin as [[=] | Hin].
    apply Forall_cons in Hrange as [Hidx Hrange].
    rewrite collect_tuple. destruct (truthy_value result).
    + assert ((idx <? length translated_chunks)%nat = true) as ->
        by (apply Nat.ltb_lt; lia).
      apply IH; [done |]. eapply Forall_impl; [exact Hrange |].
      intros [idx' result' |]; [| done]. by rewrite length_insert.
    + destruct (IH translated_chunks Hin Hrange) as [msgs ->].
      by eexists.
  - by exists [].
Qed.


(** ** The traces of [translate_file] *)

Lemma make_chunk_args_lookup (from_lang to_lang credential endpoint : string)
    (verbosity : bool) (chunks : list string) (i : nat) (args : ChunkArgs) :
  make_chunk_args from_lang to_lang credential endpoint verbosity chunks !! i
  = Some args →
  chunk_idx args = i ∧ (i < length chunks)%nat ∧ token args = credential
  ∧ verbose args = verbosity.
Proof.
  unfold make_chunk_args. rewrite list_lookup_imap.
  destruct (chunks !! i) as [chunk |] eqn:Hchunk; [| done].
  intros [= <-]. simpl. repeat split. by eapply lookup_lt_Some.
Qed.

Lemma opened_app (trace1 trace2 : list Event) :
  opened (trace1 ++ trace2) = opened trace1 ++ opened trace2.
Proof. apply omap_app. Qed.

Lemma written_app (trace1 trace2 : list Event) :
  written (trace1 ++ trace2) = written trace1 ++ written trace2.
Proof. apply omap_app. Qed.

Lemma opened_Submit (chunk_args : list ChunkArgs) :
  opened (Submit <$> chunk_args) = [].
Proof. induction chunk_args as [|args chunk_args IH]; [done | apply IH]. Qed.

Lemma opened_Print (msgs : list Message) : opened (Print <$> msgs) = [].
Proof. induction msgs as [|m msgs IH]; [done | apply IH]. Qed.

Lemma written_Submit (chunk_args : list ChunkArgs) :
  written (Submit <$> chunk_args) = [].
Proof. induction chunk_args as [|args chunk_args IH]; [done | apply IH]. Qed.

Lemma written_Print (msgs : list Message) : written (Print <$> msgs) = [].
Proof. induction msgs as [|m msgs IH]; [done | apply IH]. Qed.

Section traces.
Variable w : World.
Variables input_file_path output_file_path : string.
Variables from_lang to_lang token endpoint : string.
Variables max_length max_requests workers : Z.
Variable verbose : bool.

(** The three shapes of a run: the input cannot be read; the pool cannot
    be made; the chunks are submitted and collected. *)
Lemma translate_file_shape :
  ∃ trace,
    translate_file w input_file_path output_file_path from_lang to_lang
      token endpoint max_length max_requests workers verbose = Some trace
    ∧ ((∃ e, trace = [OpenRead input_file_path; Print (MsgError e)])
       ∨ (∃ e, trace = [OpenRead input_file_path; Print (MsgStarting workers);
                        Print (MsgError e)])
       ∨ (∃ chunks msgs out,
            trace
            = [OpenRead input_file_path; Print (MsgStarting workers)]
              ++ (Submit
                  <$> make_chunk_args from_lang to_lang token endpoint
                        verbose chunks)
              ++ (Print <$> msgs) ++ finish w output_file_path out)).
Proof.
  destruct (read_file w input_file_path) as [text | e] eqn:Hread.
  - destruct (decide (0 < workers)) as [Hworkers | Hworkers].
    + destruct (translate_file_run w input_file_path output_file_path
                  from_lang to_lang token endpoint max_length max_requests
                  workers verbose text Hread Hworkers)
        as (futures & msgs & out & _ & _ & Hrun).
      eexists. split; [exact Hrun |]. right. right. by eexists _, _, _.
    + unfold translate_file. rewrite Hread.
      assert ((workers <=? 0) = true) as -> by lia.
      eexists. split; [done |]. right. left. by eexists.
  - unfold translate_file. rewrite Hread.
    eexists. split; [done |]. left. by eexists.
Qed.

Lemma finish_ends (out : string + list PyValue) :
  (∃ content,
     written (finish w output_file_path out) = [(output_file_path, content)]
     ∧ last (finish w output_file_path out)
       = Some (Print (MsgDone output_file_path)))
  ∨ (written (finish w output_file_path out) = []
     ∧ ∃ e, last (finish w output_file_path out) = Some (Print (MsgError e))).
Proof.
  destruct out as [e | translated_chunks]; simpl.
  - right. split; [done |]. by exists e.
  - destruct (assemble translated_chunks) as [e | translated_text].
    + right. split; [done |]. by exists e.
    + unfold save. destruct (write_file w _ _) as [e |].
      * right. split; [done |]. by exists e.
      * left. by eexists.
Qed.

Lemma opened_finish (out : string + list PyValue) :
  opened (finish w output_file_path out) = [].
Proof.
  destruct out as [e | translated_chunks]; [done |]. unfold finish, save.
  destruct (assemble translated_chunks) as [e | translated_text]; [done |].
  by destruct (write_file w _ _).
Qed.

Lemma last_finish (trace : list Event) (out : string + list PyValue) :
  last (trace ++ finish w output_file_path out)
  = last (finish w output_file_path out).
Proof.
  rewrite last_app. destruct out as [e | translated_chunks]; [done |].
  unfold finish, save.
  destruct (assemble translated_chunks) as [e | translated_text]; [done |].
  by destruct (write_file w _ _).
Qed.

End traces.

(** The futures of chunks that all return tuples are the results paired
    with the positions of the chunks. *)
Lemma futures_are_tuples (remote : Remote)
    (from_lang to_lang credential endpoint : string) (verbosity : bool)
    (chunks : list string) (futures : list ChunkReturn) :
  let chunk_args :=
    make_chunk_args from_lang to_lang credential endpoint verbosity chunks in
  (∀ args, args ∈ chunk_args → ¬ rate_limited (remote args 2%nat)) →
  Forall2 (λ args ret,
             ∃ tr, translate_chunk enough_fuel remote args = Some (ret, tr))
          chunk_args futures →
  ∃ results,
    futures = imap Tuple results
    ∧ Forall2 (λ args result,
                 ∃ tr, translate_chunk enough_fuel remote args
                       = Some (Tuple (chunk_idx args) result, tr))
              chunk_args results.
Proof.
  intros chunk_args Hthird Hfutures.
  exists ((λ ret, match ret with
                  | Tuple _ result => result
                  | ReturnsNone => VNone
                  end) <$> futures).
  assert (∀ i args ret,
            chunk_args !! i = Some args → futures !! i = Some ret →
            ∃ result tr,
              ret = Tuple i result
              ∧ translate_chunk enough_fuel remote args
                = Some (Tuple (chunk_idx args) result, tr)) as Hret.
  { intros i args ret Hargs Hfuture.
    destruct (Forall2_lookup_lr _ _ _ _ _ _ Hfutures Hargs Hfuture)
      as [tr Hcall].
    destruct (retry_loop_returns_tuple remote args enough_fuel 0 0)
      as (result & tr' & Hloop); [done | done | | |].
    { change (max_tries - 0) with max_tries. unfold enough_fuel. lia. }
    { apply Hthird. by eapply list_elem_of_lookup_2. }
    unfold translate_chunk in Hcall. rewrite Hloop in Hcall.
    injection Hcall as <- <-. exists result, (SleepJitter :: tr').
    apply make_chunk_args_lookup in Hargs as (Hidx & _ & _).
    split; [by rewrite Hidx |]. unfold translate_chunk. by rewrite Hloop. }
  split.
  - apply list_eq. intros i.
    rewrite list_lookup_imap, list_lookup_fmap.
    destruct (futures !! i) as [ret |] eqn:Hfuture; [| done].
    destruct (Forall2_lookup_r _ _ _ _ _ Hfutures Hfuture)
      as (args & Hargs & _).
    destruct (Hret i args ret Hargs Hfuture) as (result & tr & -> & _).
    done.
  - apply Forall2_same_length_lookup_2.
    + rewrite length_fmap. by eapply Forall2_length.
    + intros i args result Hargs. rewrite list_lookup_fmap.
      destruct (futures !! i) as [ret |] eqn:Hfuture; [| done].
      destruct (Hret i args ret Hargs Hfuture) as (result' & tr & -> & Hcall).
      intros [= <-]. by exists tr.
Qed.

(** A run in which no submitted chunk is rate limited at its third post
    collects a result for every chunk and ends with the [join] of the
    results that are kept. *)
Lemma translate_file_collects (w : World)
    (input_file_path output_file_path from_lang to_lang credential endpoint
       text : string)
    (max_length max_requests workers : Z) (verbosity : bool) :
  read_file w input_file_path = inl text →
  0 < workers →
  let chunk_args :=
    make_chunk_args from_lang to_lang credential endpoint verbosity
      (limit_chunks max_requests (split_text_into_chunks text max_length)) in
  (∀ args, args ∈ chunk_args → ¬ rate_limited (remote w args 2%nat)) →
  ∃ results msgs,
    Forall2 (λ args result,
               ∃ tr, translate_chunk enough_fuel (remote w) args
                     = Some (Tuple (chunk_idx args) result, tr))
            chunk_args results
    ∧ msgs ≡ₚ MsgChunkFailed <$> failed_numbers results
    ∧ translate_file w input_file_path output_file_path from_lang to_lang
        credential endpoint max_length max_requests workers verbosity
      = Some ([OpenRead input_file_path; Print (MsgStarting workers)]
              ++ (Submit <$> chunk_args) ++ (Print <$> msgs)
              ++ finish w output_file_path (inr (kept <$> results))).
Proof.
  intros Hread Hworkers chunk_args Hthird.
  destruct (translate_file_run w input_file_path output_file_path from_lang
              to_lang credential endpoint max_length max_requests workers
              verbosity text Hread Hworkers)
    as (futures & msgs & out & Hfutures & Hcollect & Hrun).
  cbv zeta in Hfutures, Hcollect, Hrun. fold chunk_args in Hfutures, Hrun.
  destruct (futures_are_tuples (remote w) from_lang to_lang credential
              endpoint verbosity _ futures Hthird Hfutures)
    as (results & -> & Hresults).
  assert (length (limit_chunks max_requests
                    (split_text_into_chunks text max_length))
          = length results) as Hlen.
  { apply Forall2_length in Hresults. unfold chunk_args, make_chunk_args in *.
    by rewrite length_imap in Hresults. }
  rewrite Hlen in Hcollect.
  destruct (collect_any_order (schedule w) results) as (msgs' & Hslots & Hmsgs).
  rewrite Hslots in Hcollect. injection Hcollect as -> <-.
  by exists results, msgs.
Qed.

(** X11: when every chunk has returned a tuple, the collector ends without
    exception whatever the order of completion, and it prints the failure
    line exactly once for each chunk whose result is not truthy ([None],
    the empty text, a zero, [false], an empty list or dict), with the
    number of the chunk counted from 1, and for no other chunk. *)
Theorem each_failed_chunk_is_announced_once (sched : list nat)
    (results : list PyValue) :
  ∃ msgs slots,
    collect (as_completed sched (imap Tuple results))
      (replicate (length results) VNone)
    = (msgs, inr slots)
    ∧ msgs ≡ₚ MsgChunkFailed <$> failed_numbers results.
Proof.
  destruct (collect_any_order sched results) as (msgs & Hcollect & Hmsgs).
  by exists msgs, (kept <$> results).
Qed.

(** X12: a run that reads its input and has a positive number of workers,
    and in which the three posts of one submitted chunk are all rate
    limited, writes no output file: it ends with the error line of the
    unpacking of [None], whatever the other chunks returned. *)
Theorem rate_limited_chunk_aborts_the_run (w : World)
    (input_file_path output_file_path from_lang to_lang credential endpoint
       text : string)
    (max_length max_requests workers : Z) (verbosity : bool)
    (args : ChunkArgs) :
  read_file w input_file_path = inl text →
  0 < workers →
  args ∈ make_chunk_args from_lang to_lang credential endpoint verbosity
           (limit_chunks max_requests
              (split_text_into_chunks text max_length)) →
  (∀ n, (n < 3)%nat → rate_limited (remote w args n)) →
  ∃ trace,
    translate_file w input_file_path output_file_path from_lang to_lang
      credential endpoint max_length max_requests workers verbosity
    = Some trace
    ∧ written trace = []
    ∧ last trace = Some (Print (MsgError cannot_unpack)).
Proof.
  intros Hread Hworkers Hargs Hlimited.
  destruct (translate_file_run w input_file_path output_file_path from_lang
              to_lang credential endpoint max_length max_requests workers
              verbosity text Hread Hworkers)
    as (futures & msgs & out & Hfutures & Hcollect & Hrun).
  cbv zeta in Hfutures, Hcollect, Hrun.
  destruct (collect_none (as_completed (schedule w) futures)
              (replicate
                 (length (limit_chunks max_requests
                            (split_text_into_chunks text max_length))) VNone))
    as [msgs' Hnone].
  - rewrite as_completed_Permutation.
    apply list_elem_of_lookup_1 in Hargs as [i Hi].
    destruct (Forall2_lookup_l _ _ _ _ _ Hfutures Hi)
      as (ret & Hret & tr & Hcall).
    destruct (translate_chunk_rate_limited (remote w) args Hlimited)
      as [tr' Hcall'].
    rewrite Hcall' in Hcall. injection Hcall as <- _.
    by eapply list_elem_of_lookup_2.
  - rewrite as_completed_Permutation.
    eapply Forall2_Forall_r; [exact Hfutures |].
    apply Forall_forall. intros args' Hargs' [idx result |] [tr Hcall];
      [| done].
    apply prepend_Some_inv in Hcall as [tr' Hloop].
    apply retry_loop_tuple in Hloop as [-> _]; [| done].
    apply list_elem_of_lookup_1 in Hargs' as [i Hi].
    apply make_chunk_args_lookup in Hi as (-> & Hlt & _).
    by rewrite length_replicate.
  - rewrite Hnone in Hcollect. injection Hcollect as <- <-.
    eexists. split; [exact Hrun |]. split.
    + by rewrite !written_app, written_Submit, written_Print.
    + rewrite !app_assoc. apply last_snoc.
Qed.

Lemma rate_limited_chunk_aborts_the_run_witness :
  read_file rate_limited_world "in.txt" = inl ("a" +:+ PyStr.newline +:+ "b")
  ∧ 0 < 3
  ∧ ∃ trace,
      translate_file rate_limited_world "in.txt" "out.txt" "Automatic"
        "Polish" "secret" "url" 1 100 3 false = Some trace
      ∧ written trace = []
      ∧ last trace = Some (Print (MsgError cannot_unpack)).
Proof.
  assert (read_file rate_limited_world "in.txt"
          = inl ("a" +:+ PyStr.newline +:+ "b")) as Hread by reflexivity.
  assert (0 < 3) as Hworkers by lia.
  split; [exact Hread |]. split; [exact Hworkers |].
  apply (rate_limited_chunk_aborts_the_run rate_limited_world "in.txt"
           "out.txt" "Automatic" "Polish" "secret" "url" _ 1 100 3 false
           {| chunk := "a"; from_lang := "Automatic"; to_lang := "Polish";
              token := "secret"; endpoint := "url"; verbose := false;
              chunk_idx := 0 |}
           Hread Hworkers).
  - vm_compute. left.
  - intros n _. reflexivity.
Defined.

(** X13: a run that reads its input, has a positive number of workers and
    in which no submitted chunk is rate limited at its third post, and
    every payload of a success response to a submitted chunk has a text
    at position 2, collects for every chunk a text or [None] and goes on
    to the write: the text it writes is the results that are texts and not
    empty, joined with single newlines in the order of the chunks; when
    the write succeeds the run ends with the done line, else with the
    error line of the write. *)
Theorem run_writes_the_translations (w : World)
    (input_file_path output_file_path from_lang to_lang credential endpoint
       text : string)
    (max_length max_requests workers : Z) (verbosity : bool) :
  read_file w input_file_path = inl text →
  0 < workers →
  let chunk_args :=
    make_chunk_args from_lang to_lang credential endpoint verbosity
      (limit_chunks max_requests (split_text_into_chunks text max_length)) in
  (∀ args, args ∈ chunk_args → ¬ rate_limited (remote w args 2%nat)) →
  (∀ args, args ∈ chunk_args → text_payloads (remote w) args) →
  ∃ results msgs,
    Forall2 (λ args result,
               ∃ tr, translate_chunk enough_fuel (remote w) args
                     = Some (Tuple (chunk_idx args) (result_of result), tr))
            chunk_args results
    ∧ msgs ≡ₚ MsgChunkFailed <$> failed_numbers (result_of <$> results)
    ∧ let translated_text :=
        PyStr.join PyStr.newline
          (filter (λ text, text ≠ "") (omap id results)) in
      translate_file w input_file_path output_file_path from_lang to_lang
        credential endpoint max_length max_requests workers verbosity
      = Some ([OpenRead input_file_path; Print (MsgStarting workers)]
              ++ (Submit <$> chunk_args) ++ (Print <$> msgs)
              ++ match write_file w output_file_path translated_text with
                 | Some e => [Print (MsgError e)]
                 | None => [Write output_file_path translated_text;
                            Print (MsgDone output_file_path)]
                 end).
Proof.
  intros Hread Hworkers chunk_args Hthird Htexts.
  destruct (translate_file_collects w input_file_path output_file_path
              from_lang to_lang credential endpoint text max_length
              max_requests workers verbosity Hread Hworkers Hthird)
    as (values & msgs & Hvalues & Hmsgs & Hrun).
  fold chunk_args in Hvalues, Hrun.
  set (outcome := λ value, match value with
                           | VStr text => Some text
                           | _ => None
                           end).
  assert (∀ i args value,
            chunk_args !! i = Some args → values !! i = Some value →
            result_of (outcome value) = value) as Hshape.
  { intros i args value Hargs Hvalue.
    destruct (Forall2_lookup_lr _ _ _ _ _ _ Hvalues Hargs Hvalue)
      as [tr Hcall].
    apply prepend_Some_inv in Hcall as [tr' Hloop].
    apply retry_loop_tuple in Hloop as [_ Hdecoded]; [| done].
    assert (value = VNone ∨ value ≠ VNone) as [-> | Hne]
      by (destruct value; auto); [done |].
    destruct (Hdecoded Hne) as (n & r & Hn & Hr & Hcode & Hok & Hpayload).
    destruct (Htexts args (list_elem_of_lookup_2 _ _ _ Hargs) n r value)
      as [text' ->]; [lia | done | done | done | done |].
    done. }
  assert (result_of <$> (outcome <$> values) = values) as Hresults.
  { apply list_eq. intros i. rewrite !list_lookup_fmap.
    destruct (values !! i) as [value |] eqn:Hvalue; [| done].
    destruct (Forall2_lookup_r _ _ _ _ _ Hvalues Hvalue)
      as (args & Hargs & _).
    simpl. f_equal. by eapply Hshape. }
  exists (outcome <$> values), msgs. rewrite Hresults.
  split; [| split; [done |]].
  - apply Forall2_same_length_lookup_2.
    + rewrite length_fmap. by eapply Forall2_length.
    + intros i args result Hargs. rewrite list_lookup_fmap.
      destruct (values !! i) as [value |] eqn:Hvalue; [| done].
      intros [= <-]. rewrite (Hshape i args value Hargs Hvalue).
      exact (Forall2_lookup_lr _ _ _ _ _ _ Hvalues Hargs Hvalue).
  - cbv zeta. rewrite Hrun. unfold finish.
    rewrite <- Hresults at 1. by rewrite assemble_outcomes.
Qed.

Lemma run_writes_the_translations_witness :
  read_file plain_world "in.txt" = inl three_lines
  ∧ 0 < 3
  ∧ ∃ results msgs,
      Forall2 (λ args result,
                 ∃ tr, translate_chunk enough_fuel (remote plain_world) args
                       = Some (Tuple (chunk_idx args) (result_of result), tr))
              (make_chunk_args "Automatic" "Polish" "secret" "url" false
                 (limit_chunks 100 (split_text_into_chunks three_lines 6)))
              results
      ∧ msgs ≡ₚ MsgChunkFailed <$> failed_numbers (result_of <$> results)
      ∧ translate_file plain_world "in.txt" "out.txt" "Automatic" "Polish"
          "secret" "url" 6 100 3 false
        = Some ([OpenRead "in.txt"; Print (MsgStarting 3)]
                ++ (Submit
                    <$> make_chunk_args "Automatic" "Polish" "secret" "url"
                          false
                          (limit_chunks 100
                             (split_text_into_chunks three_lines 6)))
                ++ (Print <$> msgs)
                ++ match
                     write_file plain_world "out.txt"
                       (PyStr.join PyStr.newline
                          (filter (λ text, text ≠ "") (omap id results)))
                   with
                   | Some e => [Print (MsgError e)]
                   | None =>
                       [Write "out.txt"
                          (PyStr.join PyStr.newline
                             (filter (λ text, text ≠ "") (omap id results)));
                        Print (MsgDone "out.txt")]
                   end).
Proof.
  assert (read_file plain_world "in.txt" = inl three_lines) as Hread
    by reflexivity.
  assert (0 < 3) as Hworkers by lia.
  split; [exact Hread |]. split; [exact Hworkers |].
  apply (run_writes_the_translations plain_world "in.txt" "out.txt"
           "Automatic" "Polish" "secret" "url" three_lines 6 100 3 false
           Hread Hworkers).
  - intros args _. simpl. lia.
  - intros args _ n r v _ [= <-] _ _ [= <-]. by eexists.
Defined.

(** X14: every run of [translate_file] ends: it opens the input file and
    no other, and either it writes once, to the output path, and its last
    line is the done line, or it writes nothing and its last line is an
    error line. *)
Theorem run_ends_done_or_error (w : World)
    (input_file_path output_file_path from_lang to_lang credential
       endpoint : string)
    (max_length max_requests workers : Z) (verbosity : bool) :
  ∃ trace,
    translate_file w input_file_path output_file_path from_lang to_lang
      credential endpoint max_length max_requests workers verbosity
    = Some trace
    ∧ opened trace = [input_file_path]
    ∧ ((∃ content,
          written trace = [(output_file_path, content)]
          ∧ last trace = Some (Print (MsgDone output_file_path)))
       ∨ (written trace = []
          ∧ ∃ e, last trace = Some (Print (MsgError e)))).
Proof.
  destruct (translate_file_shape w input_file_path output_file_path
              from_lang to_lang credential endpoint max_length max_requests
              workers verbosity)
    as (trace & Hrun & [[e ->] | [[e ->] | (chunks & msgs & out & ->)]]);
    eexists; (split; [exact Hrun |]).
  - split; [done |]. right. split; [done |]. by exists e.
  - split; [done |]. right. split; [done |]. by exists e.
  - split.
    + by rewrite !opened_app, opened_Submit, opened_Print, opened_finish.
    + rewrite !written_app, written_Submit, written_Print.
      rewrite !app_assoc, last_finish. simpl app.
      apply finish_ends.
Qed.

(** X15: a chunk is never submitted without a credential: in every run of
    [main], each submitted chunk carries a token that is not empty, the
    one of [--token] when that is not empty and the value of [KAGI_TOKEN]
    otherwise. *)
Theorem main_submits_with_a_token (w : World) (environ : gmap string string)
    (arguments : Arguments) :
  ∃ trace,
    main w environ arguments = Some trace
    ∧ Forall (λ args,
                token args ≠ ""
                ∧ token args
                  = if truthy_result (arg_token arguments)
                    then default "" (arg_token arguments)
                    else default "" (environ !! "KAGI_TOKEN"))
             (submitted trace).
Proof.
  assert (∀ credential,
            credential ≠ "" →
            ∃ trace,
              translate_file w (arg_input_file arguments)
                (arg_output_file arguments) (arg_from arguments)
                (arg_to arguments) credential (arg_endpoint arguments)
                (arg_max_length arguments) (arg_max_requests arguments)
                (arg_workers arguments) (arg_verbose arguments) = Some trace
              ∧ Forall (λ args, token args ≠ "" ∧ token args = credential)
                  (submitted trace)) as Hrun.
  { intros credential Hcredential.
    destruct (translate_file_shape w (arg_input_file arguments)
                (arg_output_file arguments) (arg_from arguments)
                (arg_to arguments) credential (arg_endpoint arguments)
                (arg_max_length arguments) (arg_max_requests arguments)
                (arg_workers arguments) (arg_verbose arguments))
      as (trace & Hrun & [[e ->] | [[e ->] | (chunks & msgs & out & ->)]]);
      eexists; (split; [exact Hrun |]); [done | done |].
    rewrite !submitted_app, submitted_Submit, submitted_Print,
      submitted_finish.
    simpl. rewrite app_nil_r. apply Forall_forall. intros args Hargs.
    apply list_elem_of_lookup_1 in Hargs as [i Hi].
    apply make_chunk_args_lookup in Hi as (_ & _ & -> & _). done. }
  unfold main. destruct (truthy_result (arg_token arguments)) eqn:Htoken.
  - simpl. apply Hrun. destruct (arg_token arguments) as [value |]; [| done].
    simpl in *. by apply PyStrFacts.truthy_true.
  - simpl. destruct (PyStr.truthy (default "" (environ !! "KAGI_TOKEN")))
      eqn:Henv; simpl.
    + apply Hrun. by apply PyStrFacts.truthy_true.
    + by eexists.
Qed.

(** X16: a [--token] that is not empty is the credential of the run
    whatever the environment holds, and an empty [--token] or an empty
    [KAGI_TOKEN] counts as a missing one: with neither, the run is the
    one line of the missing-token message. *)
Theorem main_token_precedence (w : World) (environ : gmap string string)
    (arguments : Arguments) :
  (∀ value,
     arg_token arguments = Some value → value ≠ "" →
     main w environ arguments
     = translate_file w (arg_input_file arguments)
         (arg_output_file arguments) (arg_from arguments) (arg_to arguments)
         value (arg_endpoint arguments) (arg_max_length arguments)
         (arg_max_requests arguments) (arg_workers arguments)
         (arg_verbose arguments))
  ∧ (default "" (arg_token arguments) = "" →
     default "" (environ !! "KAGI_TOKEN") = "" →
     main w environ arguments = Some [Print MsgNoToken]).
Proof.
  unfold main. split.
  - intros value -> Hvalue. simpl.
    apply PyStrFacts.truthy_true in Hvalue. by rewrite Hvalue.
  - intros Htoken Henv.
    assert (truthy_result (arg_token arguments) = false) as ->.
    { destruct (arg_token arguments) as [value |]; [| done].
      simpl in *. by subst. }
    simpl. by rewrite Henv.
Qed.

Lemma main_token_precedence_witness :
  main plain_world {["KAGI_TOKEN" := "other"]} (token_arguments "secret")
  = translate_file plain_world "in.txt" "out.txt" "Automatic" "Polish"
      "secret" "https://translate.kagi.com/?/translate" 1500 100 3 false
  ∧ main plain_world {["KAGI_TOKEN" := ""]} (token_arguments "")
    = Some [Print MsgNoToken].
Proof.
  split.
  - apply (proj1 (main_token_precedence plain_world
                    {["KAGI_TOKEN" := "other"]} (token_arguments "secret"))
             "secret"); [reflexivity | discriminate].
  - apply (proj2 (main_token_precedence plain_world
                    {["KAGI_TOKEN" := ""]} (token_arguments "")));
      [reflexivity |].
    by rewrite lookup_singleton_eq.
Defined.



(** A payload with the number 5 in the place of the text: the run ends
    with the [TypeError] of the [join]. *)
Example number_payload_run :
  translate_file number_world "in.txt" "out.txt" "Automatic" "Polish"
    "secret" "url" 100 100 3 false
  = Some [OpenRead "in.txt"; Print (MsgStarting 3);
          Submit {| chunk := three_lines; from_lang := "Automatic";
                    to_lang := "Polish"; token := "secret";
                    endpoint := "url"; verbose := false; chunk_idx := 0 |};
          Print (MsgError
                   "sequence item 0: expected str instance, int found")].
Proof. reflexivity. Qed.
